(** * quicktype command-line front end: the ordered asynchronous
      source-aggregation pipeline of [src/cli/quicktype.ts]

    The script is single-threaded, callback-driven JavaScript.  A call of a
    function is embedded as the tree of the effects it performs ([Prog]);
    the Node event loop is embedded as a machine ([World], [run_sync],
    [fire], [run_loop]) that runs one callback at a time, at moments chosen
    by an arbitrary schedule.  Part I holds the definitions, Parts II and
    III the theorems. *)

From stdpp Require Import base option list strings gmap.
From Stdlib Require Import ZArith Ascii.

(** * Part I: the program *)

(** ** The behaviour of a JavaScript call *)

Section Machine.
Context {E : Type} {Q : Type} {Rsp : Q → Type} {V : Type}.

(** [Prog X] is the behaviour of a call that returns an [X].
    - [Exit]: [process.exit(code)]; nothing runs afterwards.
    - [Throw]: an exception that nothing catches.
    - [Emit]: a synchronous effect visible from outside the process.
    - [Async q cb k]: start the asynchronous operation [q], register [cb]
      as its completion callback, and go on with [k] at once.
    - [NewObject], [SetProp], [GetProps]: a fresh object [{}], the
      assignment [o[key] = v], and a read of the properties of [o]. *)
Inductive Prog (X : Type) : Type :=
| Ret (x : X)
| Exit (code : Z)
| Throw (err : string)
| Emit (e : E) (k : Prog X)
| Async (q : Q) (cb : Rsp q → Prog unit) (k : Prog X)
| NewObject (k : nat → Prog X)
| SetProp (o : nat) (key : string) (v : V) (k : Prog X)
| GetProps (o : nat) (k : gmap string V → Prog X).

Arguments Ret {X} x.
Arguments Exit {X} code.
Arguments Throw {X} err.
Arguments Emit {X} e k.
Arguments Async {X} q cb k.
Arguments NewObject {X} k.
Arguments SetProp {X} o key v k.
Arguments GetProps {X} o k.

Fixpoint bind {X Y : Type} (m : Prog X) (f : X → Prog Y) : Prog Y :=
  match m with
  | Ret x => f x
  | Exit code => Exit code
  | Throw err => Throw err
  | Emit e k => Emit e (bind k f)
  | Async q cb k => Async q cb (bind k f)
  | NewObject k => NewObject (λ o, bind (k o) f)
  | SetProp o key v k => SetProp o key v (bind k f)
  | GetProps o k => GetProps o (λ props, bind (k props) f)
  end.

(** ** The event loop *)

(** What the outside world can see of a run, in the order it happens:
    a synchronous effect, the start of an asynchronous operation, its
    completion (the moment its callback fires), or its failure (the
    callback is dropped and never fires). *)
Inductive Event : Type :=
| Out (e : E)
| Start (q : Q)
| Done (q : Q)
| Lost (q : Q).

Inductive Status : Type :=
| Running
| Exited (code : Z)
| Crashed (err : string).

(** A registered completion callback, waiting for its operation. *)
Record Pending : Type := { p_req : Q; p_cb : Rsp p_req → Prog unit }.

Record World : Type := {
  trace : list Event;
  pending : list Pending;
  heap : list (gmap string V);
  status : Status
}.

Definition initial : World :=
  {| trace := []; pending := []; heap := []; status := Running |}.

Definition log (ev : Event) (w : World) : World :=
  {| trace := trace w ++ [ev]; pending := pending w;
     heap := heap w; status := status w |}.

Definition halt (s : Status) (w : World) : World :=
  {| trace := trace w; pending := pending w; heap := heap w; status := s |}.

Definition register (p : Pending) (w : World) : World :=
  {| trace := trace w; pending := pending w ++ [p];
     heap := heap w; status := status w |}.

Definition unregister (i : nat) (w : World) : World :=
  {| trace := trace w; pending := delete i (pending w);
     heap := heap w; status := status w |}.

Definition with_heap (h : list (gmap string V)) (w : World) : World :=
  {| trace := trace w; pending := pending w; heap := h; status := status w |}.

(** [o[key] = v] on the own properties of a plain object.  The name
    [__proto__] is an accessor that every plain object inherits from
    [Object.prototype]: an assignment to it goes to the prototype of the
    object (or does nothing, for a value that is no object) and creates no
    own property. *)
Definition set_property (key : string) (v : V) (props : gmap string V)
    : gmap string V :=
  if String.eqb key "__proto__" then props else <[key := v]> props.

(** Run a call to the point where the call stack is empty again. *)
Fixpoint run_sync {X : Type} (m : Prog X) (w : World) : World :=
  match m with
  | Ret _ => w
  | Exit code => halt (Exited code) w
  | Throw err => halt (Crashed err) w
  | Emit e k => run_sync k (log (Out e) w)
  | Async q cb k =>
      run_sync k (register {| p_req := q; p_cb := cb |} (log (Start q) w))
  | NewObject k => run_sync (k (length (heap w))) (with_heap (heap w ++ [∅]) w)
  | SetProp o key v k =>
      run_sync k (with_heap (alter (set_property key v) o (heap w)) w)
  | GetProps o k => run_sync (k (default ∅ (heap w !! o))) w
  end.

(** The answer of the outside world to each operation; [None] when the
    operation fails, in which case its callback is never invoked. *)
Variable response : ∀ q : Q, option (Rsp q).

(** One turn of the loop: the [i]-th pending operation completes and its
    callback runs.  A turn that names no pending operation is idle, and
    nothing happens once the process has ended. *)
Definition fire (i : nat) (w : World) : World :=
  match status w with
  | Running =>
      match pending w !! i with
      | Some p =>
          match response (p_req p) with
          | Some a => run_sync (p_cb p a) (log (Done (p_req p)) (unregister i w))
          | None => log (Lost (p_req p)) (unregister i w)
          end
      | None => w
      end
  | _ => w
  end.

Fixpoint run_loop (schedule : list nat) (w : World) : World :=
  match schedule with
  | [] => w
  | i :: schedule => run_loop schedule (fire i w)
  end.

(** A whole run: the script body, then the loop. *)
Definition run (schedule : list nat) (script : Prog unit) : World :=
  run_loop schedule (run_sync script initial).

(** The synchronous effects of a trace. *)
Definition outputs (tr : list Event) : list E :=
  omap (λ ev, match ev with Out e => Some e | _ => None end) tr.

(** The operations a trace starts, and those it completes. *)
Definition started (tr : list Event) : list Q :=
  omap (λ ev, match ev with Start q => Some q | _ => None end) tr.

Definition completed (tr : list Event) : list Q :=
  omap (λ ev, match ev with Done q => Some q | _ => None end) tr.

(** ** The two mappers *)

(** [type Continue<T> = (t: T) => void], line 196. *)
Definition Continue (T : Type) : Type := T → Prog unit.

(** [mapArrayC], lines 198-210.  [array.slice(1)] is the tail and
    [[first].concat(rest)] is [[first] ++ rest]. *)
Fixpoint mapArrayC {T U : Type} (array : list T)
    (f : T → Continue U → Prog unit) (continuation : Continue (list U))
    : Prog unit :=
  match array with
  | [] => continuation []
  | array_0 :: slice_1 =>
      f array_0 (λ first,
        mapArrayC slice_1 f (λ rest, continuation ([first] ++ rest)))
  end.

(** An object that the script only reads (the outcome of [JSON.parse], or
    the expansion of a grammar) is the list of its own enumerable
    properties in the order in which [Object.keys] enumerates them: the
    integer-like names in ascending order, then the other names in the
    order of their creation. *)
Definition Obj (W : Type) : Type := list (string * W).

(** [Object.keys(obj)]. *)
Definition Object_keys {W : Type} (obj : Obj W) : list string := obj.*1.

(** The own properties of the object, by name. *)
Definition own_properties {W : Type} (obj : Obj W) : gmap string W :=
  list_to_map obj.

(** [obj[key]] for a name among [Object.keys(obj)]: the own property. *)
Definition get_property {W : Type} (obj : Obj W) (key : string) : option W :=
  own_properties obj !! key.

(** [mapObjectValuesC], lines 212-229.  [resultObject] is one object,
    allocated once and written by every callback.  [undefined] is what
    [obj[key]] gives for a key that [obj] does not have. *)
Definition mapObjectValuesC {W : Type} (undefined : W)
    (obj : Obj W) (f : W → Continue V → Prog unit)
    (continuation : Continue (gmap string V)) : Prog unit :=
  let keys := Object_keys obj in
  NewObject (λ resultObject,
    mapArrayC keys
      (λ key arrayContinuation,
         let value := default undefined (get_property obj key) in
         f value (λ newValue,
           SetProp resultObject key newValue (arrayContinuation tt)))
      (λ _ : list unit, GetProps resultObject continuation)).

End Machine.

Arguments Prog E Q Rsp V X : clear implicits.
Arguments Continue E Q Rsp V T : clear implicits.
Arguments World E Q Rsp V : clear implicits.
Arguments Pending E Q Rsp V : clear implicits.
Arguments Event E Q : clear implicits.
Arguments Ret {E Q Rsp V X} x.
Arguments Exit {E Q Rsp V X} code.
Arguments Throw {E Q Rsp V X} err.
Arguments Emit {E Q Rsp V X} e k.
Arguments Async {E Q Rsp V X} q cb k.
Arguments NewObject {E Q Rsp V X} k.
Arguments SetProp {E Q Rsp V X} o key v k.
Arguments GetProps {E Q Rsp V X} o k.
Arguments Out {E Q} e.
Arguments Start {E Q} q.
Arguments Done {E Q} q.
Arguments Lost {E Q} q.
Arguments Build_Pending {E Q Rsp V} p_req p_cb.
Arguments initial {E Q Rsp V}.

#[global] Instance Prog_ret {E Q Rsp V} : MRet (Prog E Q Rsp V) :=
  λ X x, Ret x.
#[global] Instance Prog_bind {E Q Rsp V} : MBind (Prog E Q Rsp V) :=
  λ X Y f m, bind m f.

(** ** Schedules *)

(** The turns of a schedule at which the operation in flight completes,
    when at most one operation is pending: turn [0] completes it and any
    other turn is idle. *)
Definition completions (schedule : list nat) : nat :=
  length (filter (λ i, i = 0) schedule).

(** The turns that are left once [n] operations have completed. *)
Fixpoint after_fires (schedule : list nat) (n : nat) {struct schedule}
    : option (list nat) :=
  match n with
  | 0 => Some schedule
  | S n' =>
      match schedule with
      | [] => None
      | 0 :: schedule => after_fires schedule n'
      | S _ :: schedule => after_fires schedule n
      end
  end.

(** The events of dealing with the elements of [xs] one after the other,
    the operation of element [x] being [q x]; and the world after them,
    [eff x] being what the callback of [x] does to the world. *)
Definition steps {E Q T} (q : T → Q) (xs : list T) : list (Event E Q) :=
  x ← xs; [Start (q x); Done (q x)].

Definition advance {E Q Rsp V T} (q : T → Q)
    (eff : T → World E Q Rsp V → World E Q Rsp V) (xs : list T)
    (w : World E Q Rsp V) : World E Q Rsp V :=
  foldl (λ w x, eff x (log (Done (q x)) (log (Start (q x)) w))) w xs.

(** ** An asynchronous transform and an observing continuation *)

(** An asynchronous per-element transform: it starts an operation on its
    element and returns; the loop fires [cont] with the outcome at some
    later turn. *)
Definition transform {E T U V} (t : T) (cont : Continue E T (λ _, U) V U)
    : Prog E T (λ _, U) V () :=
  Async t cont (Ret tt).

(** The outcome of the operation on [t] is [g t]. *)
Definition answer {T U} (g : T → U) (t : T) : option U := Some (g t).

(** A final continuation that publishes what it is given. *)
Definition deliver {E Q Rsp V} (result : E) : Prog E Q Rsp V () :=
  Emit result (Ret tt).

(** The complete run of the sequential mapper: each transform starts once
    its predecessor's callback has fired, then the result is delivered. *)
Definition script {T U} (g : T → U) (xs : list T)
    : list (Event (list U) T) :=
  (x ← xs; [Start x; Done x]) ++ [Out (g <$> xs)].

(** ** JavaScript strings and Node's [path] *)

(** [a || b] and [if (a)] on an optional string: [undefined], [null] and
    the empty string are falsy. *)
Definition truthy (o : option string) : option string :=
  match o with
  | Some s => if String.eqb s "" then None else Some s
  | None => None
  end.

(** How a template literal prints an optional string. *)
Definition js_string (o : option string) : string := default "undefined" o.

(** [s.substr(from)]. *)
Fixpoint substr (s : string) (from : nat) {struct from} : string :=
  match from, s with
  | 0, _ => s
  | S from, String _ s => substr s from
  | S _, EmptyString => EmptyString
  end.

(** [s.replace(pattern, replacement)] with a string pattern: the first
    occurrence of [pattern], and only that one, is replaced. *)
Fixpoint replace (s pattern replacement : string) : string :=
  if String.prefix pattern s
  then replacement +:+ substr s (String.length pattern)
  else match s with
       | EmptyString => EmptyString
       | String c s => String c (replace s pattern replacement)
       end.

(** [xs.indexOf(x)]: the first position of [x], or [-1].  An [undefined]
    needle is at no position of an array of strings. *)
Fixpoint indexOf_from (i : Z) (xs : list string) (x : string) : Z :=
  match xs with
  | [] => -1
  | y :: xs => if String.eqb y x then i else indexOf_from (i + 1) xs x
  end.

Definition indexOf (xs : list string) (x : option string) : Z :=
  match x with
  | Some x => indexOf_from 0 xs x
  | None => -1
  end.

Fixpoint take_while {A} (p : A → bool) (l : list A) : list A :=
  match l with
  | [] => []
  | x :: l => if p x then x :: take_while p l else []
  end.

Fixpoint drop_while {A} (p : A → bool) (l : list A) : list A :=
  match l with
  | [] => []
  | x :: l => if p x then drop_while p l else x :: l
  end.

Definition is_sep (c : ascii) : bool := Ascii.eqb c "/".
Definition is_dot (c : ascii) : bool := Ascii.eqb c ".".

(** Node's [path] module is not part of the repository; [path.basename]
    and [path.extname] follow its POSIX behaviour.  [path.basename]: the
    last portion of the path, trailing separators ignored. *)
Definition path_basename (p : string) : string :=
  let last_first := drop_while is_sep (reverse (String.list_ascii_of_string p)) in
  String.string_of_list_ascii
    (reverse (take_while (λ c, negb (is_sep c)) last_first)).

(** [path.extname]: from the last [.] of the last portion to its end; empty
    when the portion has no [.], when its only [.] is its first character,
    and for the portion [..]. *)
Definition path_extname (p : string) : string :=
  let base := String.list_ascii_of_string (path_basename p) in
  let after_dot := take_while (λ c, negb (is_dot c)) (reverse base) in
  if length after_dot =? length base then ""
  else if length base - length after_dot - 1 =? 0 then ""
  else if String.eqb (path_basename p) ".." then ""
  else String "." (String.string_of_list_ascii (reverse after_dot)).

(** ** The command line and its collaborators *)

(** A target language of the engine's catalogue [Main.renderers]. *)
Record Renderer : Type := {
  extension : string;
  aceMode : string;
  name : string
}.

(** The result of [commandLineArgs(optionDefinitions)], line 109.  An
    option that was not given is [undefined] ([None]); [src-lang] has a
    default value, [help] is a flag. *)
Record Options : Type := {
  out : option string;
  top_level : option string;
  lang : option string;
  src_lang : string;
  src : option (list string);
  urls_from : option string;
  help : bool
}.

Definition set_lang (l : string) (o : Options) : Options :=
  {| out := out o; top_level := top_level o; lang := Some l;
     src_lang := src_lang o; src := src o; urls_from := urls_from o;
     help := help o |}.

Definition set_top_level (t : string) (o : Options) : Options :=
  {| out := out o; top_level := Some t; lang := lang o;
     src_lang := src_lang o; src := src o; urls_from := urls_from o;
     help := help o |}.

Definition set_src (s : list string) (o : Options) : Options :=
  {| out := out o; top_level := top_level o; lang := lang o;
     src_lang := src_lang o; src := Some s; urls_from := urls_from o;
     help := help o |}.

(** The engine's two-variant outcome: a PureScript [Either], told apart by
    its constructor's name, the payload in [value0]. *)
Inductive Either (A B : Type) : Type :=
| Left (value0 : A)
| Right (value0 : B).
Arguments Left {A B} value0.
Arguments Right {A B} value0.

(** What the script does to the outside world, synchronously. *)
Inductive Effect : Type :=
| ConsoleError (message : string)
| ConsoleLog (text : string)
| StdoutWrite (data : string)
| FileWrite (path : string) (data : string)
| FileRead (path : string)
| FileOpen (path : string).

(** A readable byte stream, and the two asynchronous operations: a network
    request, and the parse of a stream to its end. *)
Inductive Stream : Type :=
| process_stdin
| ReadStream (path : string)
| res_body (url : string).

Inductive Request : Type :=
| Fetch (url : string)
| Parse (stream : Stream).

Section Cli.
Context {JSON : Type}.

Definition Answer (q : Request) : Type :=
  match q with
  | Fetch _ => unit
  | Parse _ => JSON
  end.

(** [interface JsonArrayMap], lines 134-136. *)
Definition JsonArrayMap : Type := gmap string (list JSON).

Definition CliProg : Type → Type := Prog Effect Request Answer (list JSON).

(** The argument of the engine's entry points, lines 149-152. *)
Record Input : Type := { input : JsonArrayMap; renderer : Renderer }.

(** The collaborators that are not in the script: the engine [Main], the
    usage text, the file system and [JSON.parse]. *)
Record Env : Type := {
  Main_renderers : list Renderer;
  Main_renderFromJsonArrayMap : Input → Either string string;
  Main_renderFromJsonSchemaArrayMap : Input → Either string string;
  Main_urlsFromJsonGrammar : JSON → Either string (Obj (list string));
  getUsage_sections : string;
  fs_existsSync : string → bool;
  fs_readFileSync : string → option string;
  JSON_parse : string → option JSON
}.

Variable env : Env.

Definition console_error (message : string) : CliProg unit :=
  Emit (ConsoleError message) (Ret tt).

Definition process_exit {X} (code : Z) : CliProg X := Exit code.

(** [getRenderer], lines 111-122. *)
Definition getRenderer (options : Options) : CliProg Renderer :=
  let renderer :=
    find (λ r, negb (indexOf [extension r; aceMode r; name r] (lang options)
                     =? -1)%Z)
         (Main_renderers env) in
  match renderer with
  | None =>
      console_error ("'" +:+ js_string (lang options)
                     +:+ "' is not yet supported as an output language.");;
      process_exit 1
  | Some renderer => mret renderer
  end.

(** [fromRight], lines 124-132. *)
Definition fromRight (either : Either string string) : CliProg string :=
  match either with
  | Left result => console_error result;; process_exit 1
  | Right result => mret result
  end.

(** The names that every object literal inherits from [Object.prototype]. *)
Definition Object_prototype_names : list string :=
  ["constructor"; "__defineGetter__"; "__defineSetter__"; "hasOwnProperty";
   "__lookupGetter__"; "__lookupSetter__"; "isPrototypeOf";
   "propertyIsEnumerable"; "toString"; "valueOf"; "__proto__";
   "toLocaleString"].

(** [renderFromJsonArrayMap], lines 138-155.  The pipeline is looked up in
    an object literal with the keys [json] and [schema].  For a selector
    among [Object_prototype_names] the lookup of the script answers the
    inherited member, which is no engine entry point; the embedding covers
    the selectors outside these names, and for one of them it gives the
    behaviour of a selector that is not found. *)
Definition renderFromJsonArrayMap (options : Options)
    (jsonArrayMap : JsonArrayMap) : CliProg string :=
  let pipeline :=
    if String.eqb (src_lang options) "json"
    then Some (Main_renderFromJsonArrayMap env)
    else if String.eqb (src_lang options) "schema"
    then Some (Main_renderFromJsonSchemaArrayMap env)
    else None in
  match pipeline with
  | None =>
      console_error ("Input language '" +:+ src_lang options
                     +:+ "' is not supported.");;
      process_exit 1
  | Some pipeline =>
      renderer ← getRenderer options;
      let input := {| input := jsonArrayMap; renderer := renderer |} in
      fromRight (pipeline input)
  end.

(** [renderAndOutput], lines 157-164. *)
Definition renderAndOutput (options : Options) (jsonArrayMap : JsonArrayMap)
    : CliProg unit :=
  output ← renderFromJsonArrayMap options jsonArrayMap;
  match truthy (out options) with
  | Some options_out => Emit (FileWrite options_out output) (Ret tt)
  | None => Emit (StdoutWrite output) (Ret tt)
  end.

(** [workFromJsonArray], lines 166-170. *)
Definition workFromJsonArray (options : Options) (jsonArray : list JSON)
    : CliProg unit :=
  let jsonArrayMap : JsonArrayMap :=
    set_property (js_string (top_level options)) jsonArray ∅ in
  renderAndOutput options jsonArrayMap.

(** [parseJsonFromStream], lines 172-190: the stream is consumed in the
    background and [continueWithJson] gets the assembled value at its
    end. *)
Definition parseJsonFromStream (stream : Stream)
    (continueWithJson : JSON → CliProg unit) : CliProg unit :=
  Async (Parse stream) continueWithJson (Ret tt).

(** [usage], lines 192-194. *)
Definition usage : CliProg unit :=
  Emit (ConsoleLog (getUsage_sections env)) (Ret tt).

(** [parseFileOrUrl], lines 231-237. *)
Definition parseFileOrUrl (fileOrUrl : string)
    (continueWithJson : JSON → CliProg unit) : CliProg unit :=
  if fs_existsSync env fileOrUrl
  then Emit (FileOpen fileOrUrl)
         (parseJsonFromStream (ReadStream fileOrUrl) continueWithJson)
  else Async (Fetch fileOrUrl)
         (λ res, parseJsonFromStream (res_body fileOrUrl) continueWithJson)
         (Ret tt).

(** [parseFileOrUrlArray], lines 239-241. *)
Definition parseFileOrUrlArray (filesOrUrls : list string)
    (continuation : list JSON → CliProg unit) : CliProg unit :=
  mapArrayC filesOrUrls parseFileOrUrl continuation.

(** [inferLang], lines 243-255. *)
Definition inferLang (options : Options) : CliProg string :=
  match truthy (out options) with
  | Some options_out =>
      let extension := path_extname options_out in
      (if String.eqb extension ""
       then console_error
              "Please specify a language (--lang) or an output file extension.";;
            process_exit 1
       else mret tt);;
      mret (substr extension 1)
  | None => mret "go"
  end.

(** [inferTopLevel], lines 257-274.  [options.src] is read as it is when
    the function is called: [undefined] has no [length]. *)
Definition inferTopLevel (options : Options) : CliProg string :=
  match truthy (out options) with
  | Some options_out =>
      let extension := path_extname options_out in
      let without := replace (path_basename options_out) extension "" in
      mret without
  | None =>
      match src options with
      | None => Throw "TypeError: Cannot read property 'length' of undefined"
      | Some [src_0] =>
          let extension := path_extname src_0 in
          let without := replace (path_basename src_0) extension "" in
          mret without
      | Some _ => mret "TopLevel"
      end
  end.

(** [main], lines 276-301.  The three assignments to the global [options]
    come first, in this order; what runs later reads the updated record.
    The keys of a grammar expansion all have a value, so the [undefined]
    of [mapObjectValuesC] is never used; the empty list stands for it. *)
Definition main (args : list string) (options : Options) : CliProg unit :=
  options_lang ← match truthy (lang options) with
                 | Some l => mret l
                 | None => inferLang options
                 end;
  let options := set_lang options_lang options in
  options_top_level ← match truthy (top_level options) with
                      | Some t => mret t
                      | None => inferTopLevel options
                      end;
  let options := set_top_level options_top_level options in
  let options_src := default [] (src options) in
  let options := set_src options_src options in
  if (length args =? 0) || help options then usage
  else
    match truthy (urls_from options) with
    | Some file =>
        Emit (FileRead file)
          match fs_readFileSync env file with
          | None => Throw "Error: ENOENT"
          | Some text =>
              match JSON_parse env text with
              | None => Throw "SyntaxError"
              | Some json =>
                  match Main_urlsFromJsonGrammar env json with
                  | Left result =>
                      console_error ("Error: " +:+ result);; process_exit 1
                  | Right result =>
                      mapObjectValuesC [] result parseFileOrUrlArray
                        (renderAndOutput options)
                  end
              end
          end
    | None =>
        if length options_src =? 0
        then parseJsonFromStream process_stdin
               (λ json, workFromJsonArray options [json])
        else if length options_src =? 1
        then parseFileOrUrlArray options_src (workFromJsonArray options)
        else (usage;; process_exit 1)
    end.

End Cli.

Arguments Env JSON : clear implicits.
Arguments CliProg JSON X : clear implicits.
Arguments JsonArrayMap JSON : clear implicits.
Arguments Input JSON : clear implicits.

(** ** The vocabulary of the statements *)

(** In [mapObjectValuesC]: the value [obj[key]] the transform is invoked
    on, and what the callback of [key] does to the world, namely
    [resultObject[key] = newValue] with the outcome [g] of the transform. *)
Definition value_of {W} (undefined : W) (obj : Obj W) (key : string) : W :=
  default undefined (get_property obj key).

Definition assign {E Q Rsp V W} (g : W → V) (undefined : W)
    (obj : Obj W) (resultObject : nat) (key : string)
    (w : World E Q Rsp V) : World E Q Rsp V :=
  with_heap
    (alter (set_property key (g (value_of undefined obj key))) resultObject
       (heap w))
    w.

(** The object that [mapObjectValuesC] hands on when every transform has
    called back: the outcome [g] of the transform for each own property of
    the input, except for the name [__proto__], the assignment to which
    creates no property. *)
Definition surviving {V W} (g : W → V) (obj : Obj W) : gmap string V :=
  g <$> delete "__proto__" (own_properties obj).

(** [JSON.parse('{"__proto__": 1, "x": 2}')]: an object with an own
    property named [__proto__]. *)
Definition proto_and_x : Obj nat := [("__proto__", 1); ("x", 2)].

(** The selector [l] is one of the three identifiers of the renderer. *)
Definition matches (r : Renderer) (l : string) : Prop :=
  l = extension r ∨ l = aceMode r ∨ l = name r.

(** The message of [getRenderer] for a selector that no renderer has, and
    the message of [inferLang]. *)
Definition not_yet_supported (l : string) : string :=
  "'" +:+ l +:+ "' is not yet supported as an output language.".

Definition please_specify : string :=
  "Please specify a language (--lang) or an output file extension.".

(** The language and the top-level name that [main] stores in [options]:
    the flag when it is given, what the inference returns otherwise. *)
Definition selects_lang {JSON} (options : Options) (l : string) : Prop :=
  truthy (lang options) = Some l
  ∨ truthy (lang options) = None ∧ inferLang (JSON:=JSON) options = Ret l.

Definition selects_top_level {JSON} (options : Options) (t : string) : Prop :=
  truthy (top_level options) = Some t
  ∨ truthy (top_level options) = None
    ∧ inferTopLevel (JSON:=JSON) options = Ret t.

(** The text [data] is generated code: a success payload of one of the two
    entry points of the engine. *)
Definition rendered {JSON} (env : Env JSON) (data : string) : Prop :=
  ∃ input,
    Main_renderFromJsonArrayMap env input = Right data
    ∨ Main_renderFromJsonSchemaArrayMap env input = Right data.

(** Wherever the call, or a callback it registers, writes to a file or to
    standard output, what it writes is generated code. *)
Fixpoint writes_rendered {JSON : Type} (env : Env JSON) {X : Type}
    (p : Prog Effect Request (Answer (JSON:=JSON)) (list JSON) X) : Prop :=
  match p with
  | Ret _ | Exit _ | Throw _ => True
  | Emit e k =>
      match e with
      | FileWrite _ data | StdoutWrite data => rendered env data
      | _ => True
      end ∧ writes_rendered env k
  | Async q cb k => (∀ a, writes_rendered env (cb a)) ∧ writes_rendered env k
  | NewObject k => ∀ o, writes_rendered env (k o)
  | SetProp _ _ _ k => writes_rendered env k
  | GetProps _ k => ∀ props, writes_rendered env (k props)
  end.

(** A world in which every write so far was of generated code, and every
    pending callback writes generated code only. *)
Definition safe {JSON} (env : Env JSON)
    (w : World Effect Request (Answer (JSON:=JSON)) (list JSON)) : Prop :=
  (∀ path data, Out (FileWrite path data) ∈ trace w → rendered env data)
  ∧ (∀ data, Out (StdoutWrite data) ∈ trace w → rendered env data)
  ∧ ∀ p, p ∈ pending w → ∀ a, writes_rendered env (p_cb p a).

(** ** Concrete inputs *)

(** A small engine and host: two target languages, a JSON pipeline that
    always succeeds, a schema pipeline that always fails, a file system
    that has the paths starting with [f], and sources that all parse to
    the sample [7]. *)
Definition csharp : Renderer :=
  {| extension := "cs"; aceMode := "csharp"; name := "C#" |}.

Definition golang : Renderer :=
  {| extension := "go"; aceMode := "golang"; name := "Go" |}.

Definition sample_env : Env nat := {|
  Main_renderers := [csharp; golang];
  Main_renderFromJsonArrayMap := λ _, Right "code";
  Main_renderFromJsonSchemaArrayMap := λ _, Left "bad schema";
  Main_urlsFromJsonGrammar := λ _, Left "bad grammar";
  getUsage_sections := "usage";
  fs_existsSync := String.prefix "f";
  fs_readFileSync := λ _, Some "{}";
  JSON_parse := λ _, Some 0
|}.

Definition sample_response (q : Request) : option (Answer (JSON:=nat) q) :=
  match q with
  | Fetch _ => Some tt
  | Parse _ => Some 7
  end.

(** [quicktype -l klingon f.json] *)
Definition klingon_options : Options :=
  {| out := None; top_level := None; lang := Some "klingon";
     src_lang := "json"; src := Some ["f.json"]; urls_from := None;
     help := false |}.

(** [quicktype -o foo < sample.json] *)
Definition bare_out_options : Options :=
  {| out := Some "foo"; top_level := None; lang := None;
     src_lang := "json"; src := None; urls_from := None; help := false |}.

(** [quicktype -o foo a.json b.json] *)
Definition two_sources_bare_out_options : Options :=
  {| out := Some "foo"; top_level := None; lang := None;
     src_lang := "json"; src := Some ["a.json"; "b.json"];
     urls_from := None; help := false |}.

(** [quicktype -l go a.json b.json] *)
Definition two_sources_options : Options :=
  {| out := None; top_level := None; lang := Some "go";
     src_lang := "json"; src := Some ["a.json"; "b.json"];
     urls_from := None; help := false |}.

(** [quicktype -o Foo.cs < sample.json] *)
Definition foo_cs_options : Options :=
  {| out := Some "Foo.cs"; top_level := None; lang := None;
     src_lang := "json"; src := None; urls_from := None; help := false |}.

(** [quicktype -l golang -s schema f.json] *)
Definition schema_options : Options :=
  {| out := Some "out.go"; top_level := Some "T"; lang := Some "golang";
     src_lang := "schema"; src := Some ["f.json"]; urls_from := None;
     help := false |}.

(** ** The vocabulary of the further statements *)

(** The world with more events in its trace. *)
Definition extend {E Q Rsp V} (evs : list (Event E Q)) (w : World E Q Rsp V)
    : World E Q Rsp V :=
  {| trace := trace w ++ evs; pending := pending w;
     heap := heap w; status := status w |}.

(** Started in a running world with nothing pending, the call [p] gets,
    after [n] completions and whatever the idle turns in between, to the
    point where [k] is called, in the world changed by [eff]. *)
Definition settles {E Q Rsp V} (response : ∀ q : Q, option (Rsp q))
    (p : Prog E Q Rsp V ()) (n : nat) (k : Prog E Q Rsp V ())
    (eff : World E Q Rsp V → World E Q Rsp V) : Prop :=
  ∀ w schedule rest,
    pending w = [] → status w = Running →
    after_fires schedule n = Some rest →
    run_loop response schedule (run_sync p w)
    = run_loop response rest (run_sync k (eff w)).

(** A change of the world that touches neither the pending callbacks nor
    the status of the process. *)
Definition calm {E Q Rsp V} (eff : World E Q Rsp V → World E Q Rsp V) : Prop :=
  ∀ w, pending (eff w) = pending w ∧ status (eff w) = status w.

(** The call starts no asynchronous operation before it returns. *)
Fixpoint quiet {E Q Rsp V} {X : Type} (p : Prog E Q Rsp V X) : Prop :=
  match p with
  | Ret _ | Exit _ | Throw _ => True
  | Emit _ k => quiet k
  | Async _ _ _ => False
  | NewObject k => ∀ o, quiet (k o)
  | SetProp _ _ _ k => quiet k
  | GetProps _ k => ∀ props, quiet (k props)
  end.

(** The call starts at most one asynchronous operation before it returns,
    and so does every callback it registers, and theirs. *)
Fixpoint serial {E Q Rsp V} {X : Type} (p : Prog E Q Rsp V X) : Prop :=
  match p with
  | Ret _ | Exit _ | Throw _ => True
  | Emit _ k => serial k
  | Async _ cb k => (∀ a, serial (cb a)) ∧ quiet k
  | NewObject k => ∀ o, serial (k o)
  | SetProp _ _ _ k => serial k
  | GetProps _ k => ∀ props, serial (k props)
  end.

(** A world with at most one callback pending, which is [serial]. *)
Definition one_in_flight {E Q Rsp V} (w : World E Q Rsp V) : Prop :=
  pending w = []
  ∨ ∃ p, pending w = [p] ∧ ∀ a, serial (p_cb p a).

(** Every synchronous effect of the call, and of the callbacks it
    registers, satisfies [P]. *)
Fixpoint emits_only {E Q Rsp V} {X : Type} (P : E → Prop)
    (p : Prog E Q Rsp V X) : Prop :=
  match p with
  | Ret _ | Exit _ | Throw _ => True
  | Emit e k => P e ∧ emits_only P k
  | Async _ cb k => (∀ a, emits_only P (cb a)) ∧ emits_only P k
  | NewObject k => ∀ o, emits_only P (k o)
  | SetProp _ _ _ k => emits_only P k
  | GetProps _ k => ∀ props, emits_only P (k props)
  end.

(** The call has no synchronous effect, and neither have the callbacks
    that the answers of the outside world let fire. *)
Fixpoint silent {E Q Rsp V} (response : ∀ q : Q, option (Rsp q)) {X : Type}
    (p : Prog E Q Rsp V X) : Prop :=
  match p with
  | Ret _ | Exit _ | Throw _ => True
  | Emit _ _ => False
  | Async q cb k =>
      (∀ a, response q = Some a → silent response (cb a)) ∧ silent response k
  | NewObject k => ∀ o, silent response (k o)
  | SetProp _ _ _ k => silent response k
  | GetProps _ k => ∀ props, silent response (k props)
  end.

(** A transform that hands its element over at once, without any
    asynchronous step. *)
Definition immediately {E Q Rsp V T U} (g : T → U) (t : T)
    (cont : Continue E Q Rsp V U) : Prog E Q Rsp V () :=
  cont (g t).

(** The resolution of one source by [parseFileOrUrl]: the number of
    asynchronous operations it takes, the events it leaves in the trace
    when all goes well, and the sample it hands over. *)
Definition hops {JSON} (env : Env JSON) (fileOrUrl : string) : nat :=
  if fs_existsSync env fileOrUrl then 1 else 2.

Definition resolution {JSON} (env : Env JSON) (fileOrUrl : string)
    : list (Event Effect Request) :=
  if fs_existsSync env fileOrUrl
  then [Out (FileOpen fileOrUrl); Start (Parse (ReadStream fileOrUrl));
        Done (Parse (ReadStream fileOrUrl))]
  else [Start (Fetch fileOrUrl); Done (Fetch fileOrUrl);
        Start (Parse (res_body fileOrUrl)); Done (Parse (res_body fileOrUrl))].

Definition sample_of {JSON} (env : Env JSON)
    (response : ∀ q : Request, option (Answer (JSON:=JSON) q))
    (fileOrUrl : string) : option JSON :=
  if fs_existsSync env fileOrUrl
  then response (Parse (ReadStream fileOrUrl))
  else match response (Fetch fileOrUrl) with
       | Some _ => response (Parse (res_body fileOrUrl))
       | None => None
       end.

(** The sink that [renderAndOutput] writes to: the output destination when
    one is given, standard output otherwise. *)
Definition to_the_sink (options : Options) (e : Effect) : Prop :=
  match e with
  | FileWrite path _ => truthy (out options) = Some path
  | StdoutWrite _ => truthy (out options) = None
  | _ => True
  end.

(** The path that [inferTopLevel] takes the name from. *)
Definition name_source (options : Options) : option string :=
  match truthy (out options) with
  | Some options_out => Some options_out
  | None =>
      match src options with
      | Some [src_0] => Some src_0
      | _ => None
      end
  end.

Definition unsupported_input (l : string) : string :=
  "Input language '" +:+ l +:+ "' is not supported.".

Definition no_length : string :=
  "TypeError: Cannot read property 'length' of undefined".

(** A world whose trace has no synchronous effect so far and whose pending
    callbacks are [silent]. *)
Definition hushed {E Q Rsp V} (response : ∀ q : Q, option (Rsp q))
    (w : World E Q Rsp V) : Prop :=
  outputs (trace w) = []
  ∧ ∀ p, p ∈ pending w →
      ∀ a, response (p_req p) = Some a → silent response (p_cb p a).

(** A world in which every synchronous effect so far satisfies [P], and
    every pending callback has such effects only. *)
Definition kept {E Q Rsp V} (P : E → Prop) (w : World E Q Rsp V) : Prop :=
  (∀ e, Out e ∈ trace w → P e)
  ∧ ∀ p, p ∈ pending w → ∀ a, emits_only P (p_cb p a).

(** ** Further concrete inputs *)

(** [quicktype -l go f.json] *)
Definition one_source_options : Options :=
  {| out := None; top_level := None; lang := Some "go";
     src_lang := "json"; src := Some ["f.json"]; urls_from := None;
     help := false |}.

(** [quicktype --help -l go f.json] *)
Definition help_options : Options :=
  {| out := None; top_level := None; lang := Some "go";
     src_lang := "json"; src := Some ["f.json"]; urls_from := None;
     help := true |}.

(** [quicktype -l go -t T --urls-from g.json] *)
Definition grammar_options : Options :=
  {| out := None; top_level := Some "T"; lang := Some "go";
     src_lang := "json"; src := None; urls_from := Some "g.json";
     help := false |}.

(** [quicktype -l go -s xml f.json] *)
Definition xml_options : Options :=
  {| out := None; top_level := Some "T"; lang := Some "go";
     src_lang := "xml"; src := Some ["f.json"]; urls_from := None;
     help := false |}.

(** [quicktype] *)
Definition no_options : Options :=
  {| out := None; top_level := None; lang := None;
     src_lang := "json"; src := None; urls_from := None; help := false |}.

(** The sample engine with a grammar that expands to two groups, the
    first of an address and a local file, the second of a local file. *)
Definition sample_expansion : Obj (list string) :=
  [("Zone", ["http://a"; "f.json"]); ("Block", ["f.json"])].

Definition grammar_env : Env nat := {|
  Main_renderers := [csharp; golang];
  Main_renderFromJsonArrayMap := λ _, Right "code";
  Main_renderFromJsonSchemaArrayMap := λ _, Left "bad schema";
  Main_urlsFromJsonGrammar := λ _, Right sample_expansion;
  getUsage_sections := "usage";
  fs_existsSync := String.prefix "f";
  fs_readFileSync := λ _, Some "{}";
  JSON_parse := λ _, Some 0
|}.

(** * Part II: the theorems *)

(** ** The event loop *)

Section MachineFacts.
Context {E : Type} {Q : Type} {Rsp : Q → Type} {V : Type}.
Variable response : ∀ q : Q, option (Rsp q).
Implicit Types (w : World E Q Rsp V) (schedule : list nat).

Lemma run_loop_quiet schedule w :
  pending w = [] → run_loop response schedule w = w.
Proof.
  intros Hp. induction schedule as [|i schedule IH]; [done|].
  simpl. unfold fire. rewrite Hp. by destruct (status w).
Qed.

Lemma run_loop_ended schedule w :
  status w ≠ Running → run_loop response schedule w = w.
Proof.
  intros Hs. induction schedule as [|i schedule IH]; [done|].
  simpl. unfold fire. by destruct (status w).
Qed.

Lemma fire_idle i w : length (pending w) ≤ i → fire response i w = w.
Proof.
  intros Hi. unfold fire. rewrite lookup_ge_None_2 by done.
  by destruct (status w).
Qed.

Lemma after_fires_enough schedule : ∀ n,
  n ≤ completions schedule → is_Some (after_fires schedule n).
Proof.
  induction schedule as [|i schedule IH]; intros [|n] Hn; simpl; try by eexists.
  - unfold completions in Hn. simpl in Hn. lia.
  - destruct i as [|i]; apply IH; unfold completions in *.
    + rewrite filter_cons_True in Hn by done. simpl in Hn. lia.
    + by rewrite filter_cons_False in Hn by done.
Qed.

Lemma steps_outputs {T} (q : T → Q) (xs : list T) :
  outputs (steps (E:=E) q xs) = [].
Proof. induction xs as [|x xs IH]; [done|]. simpl. by rewrite IH. Qed.

Lemma outputs_app (tr1 tr2 : list (Event E Q)) :
  outputs (tr1 ++ tr2) = outputs tr1 ++ outputs tr2.
Proof. apply omap_app. Qed.

(** *** Transforms that take one asynchronous step *)

Section OneHop.
Context {T U : Type}.
Variable f : T → Continue E Q Rsp V U → Prog E Q Rsp V ().
Variable q : T → Q.
Variable cb : ∀ t : T, Continue E Q Rsp V U → Rsp (q t) → Prog E Q Rsp V ().
Variable ans : ∀ t : T, Rsp (q t).
Variable out_of : T → U.
Variable eff : T → World E Q Rsp V → World E Q Rsp V.

Hypothesis f_starts : ∀ t cont, f t cont = Async (q t) (cb t cont) (Ret tt).
Hypothesis q_answers : ∀ t, response (q t) = Some (ans t).
Hypothesis cb_continues : ∀ t cont w,
  run_sync (cb t cont (ans t)) w = run_sync (cont (out_of t)) (eff t w).
Hypothesis eff_trace : ∀ t w, trace (eff t w) = trace w.
Hypothesis eff_pending : ∀ t w, pending (eff t w) = pending w.
Hypothesis eff_status : ∀ t w, status (eff t w) = status w.

Lemma advance_cons x xs w :
  advance q eff (x :: xs) w
  = advance q eff xs (eff x (log (Done (q x)) (log (Start (q x)) w))).
Proof. reflexivity. Qed.

Lemma advance_trace xs w :
  trace (advance q eff xs w) = trace w ++ steps q xs.
Proof.
  revert w. induction xs as [|x xs IH]; intros w.
  - simpl. by rewrite app_nil_r.
  - rewrite advance_cons, IH, eff_trace. simpl.
    by rewrite <- !app_assoc.
Qed.

Lemma advance_pending xs w : pending (advance q eff xs w) = pending w.
Proof.
  revert w. induction xs as [|x xs IH]; intros w; [done|].
  by rewrite advance_cons, IH, eff_pending.
Qed.

Lemma advance_status xs w : status (advance q eff xs w) = status w.
Proof.
  revert w. induction xs as [|x xs IH]; intros w; [done|].
  by rewrite advance_cons, IH, eff_status.
Qed.

(** Where a run of [mapArrayC] stands after any schedule: either all
    elements are done and the final continuation has been entered with the
    outputs in input order, or exactly one transform is in flight, all
    elements before it being done. *)
Lemma mapArrayC_loop xs : ∀ continuation w schedule,
  pending w = [] → status w = Running →
  match after_fires schedule (length xs) with
  | Some rest =>
      run_loop response schedule (run_sync (mapArrayC xs f continuation) w)
      = run_loop response rest
          (run_sync (continuation (out_of <$> xs)) (advance q eff xs w))
  | None =>
      ∃ n x p, xs !! n = Some x ∧
        run_loop response schedule (run_sync (mapArrayC xs f continuation) w)
        = register p (log (Start (q x)) (advance q eff (take n xs) w))
  end.
Proof.
  induction xs as [|x xs IH]; intros continuation w schedule Hp Hs.
  - simpl. by destruct schedule.
  - induction schedule as [|i schedule IHs].
    + simpl. exists 0, x. eexists. split; [done|].
      rewrite f_starts. reflexivity.
    + destruct i as [|i].
      * simpl. rewrite f_starts. simpl.
        unfold fire. simpl. rewrite Hs, Hp. simpl.
        rewrite q_answers, cb_continues.
        set (w' := eff x _).
        assert (Hw' : w' = advance q eff [x] w).
        { subst w'. simpl. do 2 f_equal. unfold unregister, log, register.
          simpl. by rewrite Hp. }
        specialize (IH (λ rest, continuation ([out_of x] ++ rest)) w' schedule).
        rewrite Hw' in IH.
        assert (Hp' : pending (advance q eff [x] w) = [])
          by by rewrite advance_pending.
        assert (Hs' : status (advance q eff [x] w) = Running)
          by by rewrite advance_status.
        specialize (IH Hp' Hs'). rewrite Hw'.
        destruct (after_fires schedule (length xs)) as [rest|].
        -- exact IH.
        -- destruct IH as (n & y & p & Hy & IH).
           exists (S n), y, p. split; [done|]. exact IH.
      * simpl in IHs |- *.
        rewrite f_starts in IHs |- *. simpl in IHs |- *.
        rewrite fire_idle by (simpl; rewrite Hp; simpl; lia).
        destruct (after_fires schedule (S (length xs))); exact IHs.
Qed.

End OneHop.
End MachineFacts.

(** ** The Sequential Async Mapper *)

Section SequentialFacts.
Context {T U : Type}.
Variable g : T → U.

Abbreviation W := (World (list U) T (λ _, U) ()).
Abbreviation still := (λ (_ : T) (w : W), w).

Lemma steps_started (xs : list T) :
  started (steps (E:=list U) id xs) = xs.
Proof. induction xs as [|x xs IH]; [done|]. simpl. by rewrite IH. Qed.

Lemma steps_completed (xs : list T) :
  completed (steps (E:=list U) id xs) = xs.
Proof. induction xs as [|x xs IH]; [done|]. simpl. by rewrite IH. Qed.

(** A transform that starts inside a sequence of [steps] followed by [l]
    starts either at a step boundary or inside [l]. *)
Lemma steps_split (xs : list T) : ∀ before y after (l : list (Event (list U) T)),
  steps id xs ++ l = before ++ Start y :: after →
  (∃ n, before = steps id (take n xs) ∧ xs !! n = Some y)
  ∨ (∃ before', before = steps id xs ++ before' ∧ l = before' ++ Start y :: after).
Proof.
  induction xs as [|x xs IH]; intros before y after l Heq.
  - right. by exists before.
  - destruct before as [|e1 [|e2 before]]; simpl in Heq.
    + left. exists 0. by simplify_eq.
    + by simplify_eq.
    + injection Heq as ? ? Heq. subst e1 e2.
      destruct (IH _ _ _ _ Heq) as [(n & -> & Hn)|(before' & -> & ->)].
      * left. by exists (S n).
      * right. by exists before'.
Qed.

(** Every run of the mapper is in one of two shapes. *)
Lemma mapper_reach (xs : list T) (schedule : list nat) :
  let w : W := run (answer g) schedule (mapArrayC xs transform deliver) in
  match after_fires schedule (length xs) with
  | Some _ => w = log (Out (g <$> xs)) (advance id still xs initial)
  | None =>
      ∃ n x p, xs !! n = Some x
        ∧ w = register p (log (Start x) (advance id still (take n xs) initial))
  end.
Proof.
  intros w. subst w. unfold run.
  pose proof (mapArrayC_loop (answer g) transform id (λ _ cont, cont) g g still
    (λ _ _, eq_refl) (λ _, eq_refl) (λ _ _ _, eq_refl)
    (λ _ _, eq_refl) (λ _ _, eq_refl)
    xs deliver initial schedule eq_refl eq_refl) as H.
  destruct (after_fires schedule (length xs)) as [rest|]; [|exact H].
  rewrite H. simpl. apply run_loop_quiet. simpl.
  by rewrite (advance_pending id still (λ _ _, eq_refl)).
Qed.

(** C1.  Whatever the moments at which the callbacks fire, once every
    element's callback has fired the final continuation has been given,
    exactly once, the outputs of the transform, one per input and in the
    order of the inputs, each transform having started and completed
    once; before that nothing is delivered; and for the empty input the
    continuation gets the empty result at once, before any turn of the
    loop. *)
Theorem mapArrayC_delivers_in_order (xs : list T) (schedule : list nat) :
  trace (run (V:=()) (answer g) [] (mapArrayC [] transform deliver)) = [Out []]
  ∧ (let w : W := run (answer g) schedule (mapArrayC xs transform deliver) in
     (outputs (trace w) = [] ∨ outputs (trace w) = [g <$> xs])
     ∧ (length xs ≤ completions schedule →
        trace w = script g xs ∧ outputs (trace w) = [g <$> xs]
        ∧ pending w = [] ∧ status w = Running)).
Proof.
  split; [done|]. intros w.
  assert (Hdone : w = log (Out (g <$> xs)) (advance id still xs initial) →
    trace w = script g xs ∧ outputs (trace w) = [g <$> xs]
    ∧ pending w = [] ∧ status w = Running).
  { intros ->. simpl.
    rewrite (advance_trace id still (λ _ _, eq_refl)),
      (advance_pending id still (λ _ _, eq_refl)),
      (advance_status id still (λ _ _, eq_refl)). simpl.
    split_and!; try done.
    by rewrite outputs_app, steps_outputs. }
  pose proof (mapper_reach xs schedule) as Hw. simpl in Hw. fold w in Hw.
  pose proof (after_fires_enough schedule (length xs)) as Hfires.
  destruct (after_fires schedule (length xs)) as [rest|].
  - split; [right|intros _]; by apply Hdone.
  - destruct Hw as (n & x & p & Hx & Hw). split.
    + left. rewrite Hw. simpl.
      rewrite (advance_trace id still (λ _ _, eq_refl)). simpl.
      by rewrite !outputs_app, steps_outputs.
    + intros Hn. by destruct (Hfires Hn).
Qed.

(** C2.  In every run of the mapper, whatever the schedule, at most one
    transform is in flight; and at each moment a transform is invoked,
    every transform invoked before it has had its callback fired, and the
    element it is invoked on is the next one of the input: the transform
    of element [i+1] is never invoked before the callback of element [i]
    has fired. *)
Theorem mapArrayC_one_at_a_time (xs : list T) (schedule : list nat) :
  let w : W := run (answer g) schedule (mapArrayC xs transform deliver) in
  length (pending w) ≤ 1
  ∧ ∀ before y after,
      trace w = before ++ Start y :: after →
      started before = completed before
      ∧ xs !! length (started before) = Some y.
Proof.
  intros w.
  assert (Hboundary : ∀ (ys : list T) n y,
    ys !! n = Some y →
    started (steps (E:=list U) id (take n ys))
    = completed (steps (E:=list U) id (take n ys))
    ∧ ys !! length (started (steps (E:=list U) id (take n ys))) = Some y).
  { intros ys n y Hy. rewrite steps_started, steps_completed. split; [done|].
    rewrite length_take_le; [done|]. apply lookup_lt_Some in Hy. lia. }
  pose proof (mapper_reach xs schedule) as Hw. simpl in Hw. fold w in Hw.
  destruct (after_fires schedule (length xs)) as [rest|].
  - rewrite Hw. simpl.
    rewrite (advance_pending id still (λ _ _, eq_refl)),
      (advance_trace id still (λ _ _, eq_refl)). simpl.
    split; [lia|]. intros before y after Heq.
    apply steps_split in Heq as [(n & -> & Hn)|(before' & -> & Heq)].
    + by apply Hboundary.
    + destruct before' as [|? [|]]; discriminate.
  - destruct Hw as (n & x & p & Hx & ->). simpl.
    rewrite (advance_pending id still (λ _ _, eq_refl)),
      (advance_trace id still (λ _ _, eq_refl)). simpl.
    split; [lia|]. intros before y after Heq.
    apply steps_split in Heq as [(m & -> & Hm)|(before' & -> & Heq)].
    + apply lookup_take_Some in Hm as [Hm Hlt].
      assert (take m (take n xs) = take m xs) as ->
        by (rewrite take_take; f_equal; lia).
      by apply Hboundary.
    + destruct before' as [|? [|]]; simpl in Heq; simplify_eq.
      rewrite app_nil_r. by apply Hboundary.
Qed.

End SequentialFacts.

Lemma mapArrayC_delivers_in_order_witness :
  trace (run (V:=()) (answer (λ a, 2 * a)) [0; 3; 0; 0]
           (mapArrayC [1; 2; 3] transform deliver))
  = script (λ a, 2 * a) [1; 2; 3].
Proof.
  destruct (mapArrayC_delivers_in_order (λ a, 2 * a) [1; 2; 3] [0; 3; 0; 0])
    as [_ [_ H]].
  apply H. vm_compute. lia.
Defined.

Lemma mapArrayC_one_at_a_time_witness :
  started (E:=list nat) [Start 1; Done 1]
  = completed (E:=list nat) [Start 1; Done 1]
  ∧ [1; 2; 3] !! length (started (E:=list nat) [Start 1; Done 1]) = Some 2.
Proof.
  apply (proj2 (mapArrayC_one_at_a_time (λ a, 2 * a) [1; 2; 3] [0; 0])
           [Start 1; Done 1] 2 [Done 2; Start 3]).
  reflexivity.
Defined.

(** ** The Object-Values Async Mapper *)

Section ObjectValuesFacts.
Context {W V : Type}.
Variable g : W → V.
Variable undefined : W.

Abbreviation OW := (World (gmap string V) W (λ _, V) V).

Lemma assign_heap obj ks : ∀ (w : OW) props,
  heap w = [props] →
  heap (advance (value_of undefined obj) (assign g undefined obj 0) ks w)
  = [foldl (λ m key, set_property key (g (value_of undefined obj key)) m)
       props ks].
Proof.
  induction ks as [|key ks IH]; intros w props Hw; [done|].
  rewrite advance_cons. simpl. apply IH. simpl. by rewrite Hw.
Qed.

Lemma assigned_lookup (h : string → V) ks : ∀ (props : gmap string V) key,
  foldl (λ m key, set_property key (h key) m) props ks !! key
  = if decide (key ∈ ks ∧ key ≠ "__proto__") then Some (h key)
    else props !! key.
Proof.
  induction ks as [|k ks IH]; intros props key; cbn [foldl].
  - rewrite decide_False; [done|]. intros [Hin _]. by apply elem_of_nil in Hin.
  - rewrite IH.
    destruct (decide (key ∈ ks ∧ key ≠ "__proto__")) as [[Hin Hne]|Hn].
    + rewrite decide_True; [done|]. split; [by right|done].
    + unfold set_property. destruct (String.eqb_spec k "__proto__") as [->|Hk].
      * rewrite decide_False; [done|].
        intros [[->|Hin]%elem_of_cons Hne]; [done|]. by apply Hn.
      * destruct (decide (key = k)) as [->|Hne].
        -- rewrite decide_True by (split; [by left|done]).
           by rewrite lookup_insert_eq.
        -- rewrite lookup_insert_ne by done. rewrite decide_False; [done|].
           intros [[->|Hin]%elem_of_cons Hp]; [done|]. by apply Hn.
Qed.

Lemma elem_of_Object_keys (obj : Obj W) key :
  key ∈ Object_keys obj ↔ is_Some (get_property obj key).
Proof.
  unfold Object_keys, get_property, own_properties.
  rewrite <- not_eq_None_Some, <- not_elem_of_list_to_map.
  split; [by intros ? ?|]. intros Hnn.
  by destruct (decide (key ∈ obj.*1)).
Qed.

Lemma assigned_all (obj : Obj W) :
  foldl (λ m key, set_property key (g (value_of undefined obj key)) m) ∅
    (Object_keys obj)
  = surviving g obj.
Proof.
  apply map_eq. intros key. unfold surviving.
  rewrite assigned_lookup, lookup_fmap.
  destruct (decide (key ∈ Object_keys obj ∧ key ≠ "__proto__"))
    as [[Hin Hne]|Hn].
  - rewrite lookup_delete_ne by done.
    apply elem_of_Object_keys in Hin as [v Hv].
    unfold value_of. rewrite Hv. unfold get_property in Hv. by rewrite Hv.
  - rewrite lookup_empty. destruct (decide (key = "__proto__")) as [->|Hne].
    + by rewrite lookup_delete_eq.
    + rewrite lookup_delete_ne by done.
      destruct (own_properties obj !! key) as [v|] eqn:Hv; [|done].
      exfalso. apply Hn. split; [|done]. apply elem_of_Object_keys. by eexists.
Qed.

Lemma Object_keys_length (obj : Obj W) : length (Object_keys obj) = length obj.
Proof. unfold Object_keys. by rewrite length_fmap. Qed.

(** The run of [mapObjectValuesC] under any schedule: nothing is delivered
    before the callback of every key has fired, and then the final
    continuation is given the [surviving] object once. *)
Lemma mapObjectValuesC_run (obj : Obj W) (schedule : list nat) :
  let w : OW :=
    run (answer g) schedule (mapObjectValuesC undefined obj transform deliver) in
  (outputs (trace w) = [] ∨ outputs (trace w) = [surviving g obj])
  ∧ (length obj ≤ completions schedule →
     trace w = steps (value_of undefined obj) (Object_keys obj)
               ++ [Out (surviving g obj)]
     ∧ outputs (trace w) = [surviving g obj]
     ∧ pending w = []).
Proof.
  intros w. subst w. unfold run, mapObjectValuesC. simpl run_sync.
  set (w1 := with_heap _ _).
  pose proof (mapArrayC_loop (answer g)
    (λ key arrayContinuation,
       transform (value_of undefined obj key) (λ newValue,
         SetProp 0 key newValue (arrayContinuation tt)))
    (value_of undefined obj)
    (λ key cont newValue, SetProp 0 key newValue (cont tt))
    (λ key, g (value_of undefined obj key)) (λ _, tt) (assign g undefined obj 0)
    (λ _ _, eq_refl) (λ _, eq_refl) (λ _ _ _, eq_refl)
    (λ _ _, eq_refl) (λ _ _, eq_refl)
    (Object_keys obj) (λ _, GetProps 0 deliver) w1 schedule eq_refl eq_refl)
    as H.
  pose proof (after_fires_enough schedule (length (Object_keys obj))) as Hfires.
  rewrite <- (Object_keys_length obj).
  destruct (after_fires schedule (length (Object_keys obj))) as [rest|].
  - assert (Hout : trace (run_loop (answer g) schedule
        (run_sync (mapArrayC (Object_keys obj)
           (λ key arrayContinuation,
              transform (default undefined (get_property obj key)) (λ newValue,
                SetProp 0 key newValue (arrayContinuation tt)))
           (λ _, GetProps 0 deliver)) w1))
        = steps (value_of undefined obj) (Object_keys obj)
          ++ [Out (surviving g obj)]
      ∧ pending (run_loop (answer g) schedule
        (run_sync (mapArrayC (Object_keys obj)
           (λ key arrayContinuation,
              transform (default undefined (get_property obj key)) (λ newValue,
                SetProp 0 key newValue (arrayContinuation tt)))
           (λ _, GetProps 0 deliver)) w1)) = []).
    { unfold value_of in H at 1. rewrite H. simpl run_sync.
      rewrite run_loop_quiet
        by (simpl; by rewrite (advance_pending (value_of undefined obj) (assign g undefined obj 0) (λ _ _, eq_refl))).
      simpl.
      rewrite (advance_trace (value_of undefined obj) (assign g undefined obj 0) (λ _ _, eq_refl)),
        (advance_pending (value_of undefined obj) (assign g undefined obj 0) (λ _ _, eq_refl)).
      rewrite (assign_heap obj _ w1 ∅ eq_refl). simpl.
      rewrite assigned_all. by split. }
    destruct Hout as [Hout Hpend].
    assert (Houts : outputs (trace (run_loop (answer g) schedule
        (run_sync (mapArrayC (Object_keys obj)
           (λ key arrayContinuation,
              transform (default undefined (get_property obj key)) (λ newValue,
                SetProp 0 key newValue (arrayContinuation tt)))
           (λ _, GetProps 0 deliver)) w1))) = [surviving g obj]).
    { rewrite Hout, outputs_app, steps_outputs. done. }
    split; [by right|]. by intros _.
  - destruct H as (n & key & p & Hkey & H). split.
    + left. unfold value_of in H at 1. rewrite H. simpl.
      rewrite (advance_trace (value_of undefined obj) (assign g undefined obj 0) (λ _ _, eq_refl)). simpl.
      by rewrite !outputs_app, steps_outputs.
    + intros Hn. by destruct (Hfires Hn).
Qed.

Lemma steps_started_fmap {E} (q : string → W) (ks : list string) :
  started (steps (E:=E) q ks) = q <$> ks.
Proof. induction ks as [|k ks IH]; [done|]. simpl. by rewrite IH. Qed.

Lemma surviving_lookup (obj : Obj W) key value :
  key ≠ "__proto__" → get_property obj key = Some value →
  surviving g obj !! key = Some (g value).
Proof.
  intros Hne Hkey. unfold surviving, get_property in *.
  by rewrite lookup_fmap, lookup_delete_ne, Hkey.
Qed.

Lemma surviving_proto (obj : Obj W) : surviving g obj !! "__proto__" = None.
Proof. unfold surviving. by rewrite lookup_fmap, lookup_delete_eq. Qed.


End ObjectValuesFacts.

(** C3.  The mapper does not keep the key set of every mapping.  On the
    object [{"__proto__": 1, "x": 2}], which [JSON.parse] produces with
    both names as own properties, [Object.keys] enumerates both names and
    the transform runs for both, but the assignment
    [resultObject["__proto__"] = newValue] creates no property: whatever
    the moments at which the two callbacks fire, the final continuation is
    given an object that has the key [x] only. *)
Theorem mapObjectValuesC_loses_proto (schedule : list nat) :
  2 ≤ completions schedule →
  ∃ result : gmap string nat,
    outputs (trace (run (V:=nat) (answer S) schedule
      (mapObjectValuesC 0 proto_and_x transform deliver))) = [result]
    ∧ Object_keys proto_and_x = ["__proto__"; "x"]
    ∧ started (trace (run (V:=nat) (answer S) schedule
        (mapObjectValuesC 0 proto_and_x transform deliver))) = [1; 2]
    ∧ result !! "x" = Some 3
    ∧ result !! "__proto__" = None
    ∧ dom result ≠ dom (own_properties proto_and_x).
Proof.
  intros Hn.
  destruct (mapObjectValuesC_run S 0 proto_and_x schedule) as [_ Hrun].
  destruct (Hrun Hn) as (Htrace & Hout & Hpend). clear Hrun.
  exists (surviving S proto_and_x). split_and!.
  - done.
  - done.
  - rewrite Htrace. unfold started. rewrite omap_app.
    fold (started (steps (E:=gmap string nat) (value_of 0 proto_and_x)
                     (Object_keys proto_and_x))).
    by rewrite steps_started_fmap.
  - by apply surviving_lookup.
  - apply surviving_proto.
  - intros Hdom.
    assert (Hin : "__proto__" ∈ dom (own_properties proto_and_x)).
    { apply elem_of_dom. by eexists. }
    rewrite <- Hdom in Hin. apply elem_of_dom in Hin as [v Hv].
    by rewrite surviving_proto in Hv.
Qed.

Lemma mapObjectValuesC_loses_proto_witness :
  ∃ result : gmap string nat,
    outputs (trace (run (V:=nat) (answer S) [0; 2; 0]
      (mapObjectValuesC 0 proto_and_x transform deliver))) = [result]
    ∧ Object_keys proto_and_x = ["__proto__"; "x"]
    ∧ started (trace (run (V:=nat) (answer S) [0; 2; 0]
        (mapObjectValuesC 0 proto_and_x transform deliver))) = [1; 2]
    ∧ result !! "x" = Some 3
    ∧ result !! "__proto__" = None
    ∧ dom result ≠ dom (own_properties proto_and_x).
Proof.
  apply (mapObjectValuesC_loses_proto [0; 2; 0]). vm_compute. lia.
Defined.

(** ** The command line *)

Section CliFacts.
Context {JSON : Type}.
Variable env : Env JSON.
Variable response : ∀ q : Request, option (Answer (JSON:=JSON) q).

Abbreviation CW := (World Effect Request (Answer (JSON:=JSON)) (list JSON)).

Lemma path_extname_dot (p : string) :
  path_extname p = "" ∨ ∃ e, path_extname p = String "." e.
Proof.
  unfold path_extname.
  repeat match goal with |- context [if ?b then _ else _] => destruct b end;
    eauto.
Qed.

(** The test of [getRenderer]'s [find] holds exactly for a match. *)
Lemma indexOf_matches (r : Renderer) (l : string) :
  negb (indexOf [extension r; aceMode r; name r] (Some l) =? -1)%Z = true
  ↔ matches r l.
Proof.
  unfold matches, indexOf, indexOf_from.
  destruct (String.eqb_spec (extension r) l) as [<-|He]; [by intuition|].
  destruct (String.eqb_spec (aceMode r) l) as [<-|Ha]; [by intuition|].
  destruct (String.eqb_spec (name r) l) as [<-|Hn]; [by intuition|].
  simpl. split; [done|]. intros [?|[?|?]]; congruence.
Qed.

(** [find] returns the first element that passes the test. *)
Lemma find_first {A} (test : A → bool) (l : list A) (x : A) :
  find test l = Some x
  ↔ ∃ before after, l = before ++ x :: after ∧ test x = true
      ∧ ∀ y, y ∈ before → test y = false.
Proof.
  induction l as [|a l IH]; simpl.
  - split; [done|]. intros (before & after & Heq & _).
    by destruct before.
  - destruct (test a) eqn:Ha.
    + split.
      * intros [= <-]. exists [], l. split_and!; [done..|].
        intros y Hy. by apply elem_of_nil in Hy.
      * intros ([|b before] & after & Heq & Hx & Hbefore); simpl in Heq.
        -- by simplify_eq.
        -- simplify_eq. rewrite Hbefore in Ha by by left. done.
    + rewrite IH. split.
      * intros (before & after & -> & Hx & Hbefore).
        exists (a :: before), after. split_and!; [done..|].
        intros y [->|Hy]%elem_of_cons; auto.
      * intros ([|b before] & after & Heq & Hx & Hbefore); simpl in Heq.
        -- simplify_eq. congruence.
        -- simplify_eq. exists before, after. split_and!; [done..|].
           intros y Hy. apply Hbefore. by right.
Qed.

Lemma find_nothing {A} (test : A → bool) (l : list A) :
  find test l = None ↔ ∀ y, y ∈ l → test y = false.
Proof.
  induction l as [|a l IH]; simpl.
  - split; [|done]. intros _ y Hy. by apply elem_of_nil in Hy.
  - destruct (test a) eqn:Ha.
    + split; [done|]. intros H. rewrite H in Ha by by left. done.
    + rewrite IH. split.
      * intros H y [->|Hy]%elem_of_cons; auto.
      * intros H y Hy. apply H. by right.
Qed.

Lemma matches_test (l : string) (r : Renderer) :
  negb (indexOf [extension r; aceMode r; name r] (Some l) =? -1)%Z = false
  ↔ ¬ matches r l.
Proof.
  rewrite <- indexOf_matches.
  by destruct (negb (indexOf _ _ =? -1)%Z).
Qed.

(** A selector that matches no renderer: the message, then the exit. *)
Lemma getRenderer_unsupported (options : Options) (l : string) :
  lang options = Some l →
  (∀ r, r ∈ Main_renderers env → ¬ matches r l) →
  getRenderer env options
  = Emit (ConsoleError (not_yet_supported l)) (Exit 1).
Proof.
  intros Hl Hnone. unfold getRenderer. rewrite Hl.
  assert (find (λ r, negb (indexOf [extension r; aceMode r; name r] (Some l)
                           =? -1)%Z) (Main_renderers env) = None) as ->.
  { apply find_nothing. intros r Hr. by apply matches_test, Hnone. }
  reflexivity.
Qed.

(** C10.  A selector is accepted exactly when it equals the extension, the
    editor-mode identifier or the display name of some renderer of the
    catalogue; [getRenderer] then returns the first renderer of the
    catalogue that it matches; and when it matches none, [getRenderer]
    writes its message to standard error and the process exits with
    status 1. *)
Theorem getRenderer_first_match (options : Options) (l : string) :
  lang options = Some l →
  ((∃ r, getRenderer env options = Ret r)
   ↔ ∃ r, r ∈ Main_renderers env ∧ matches r l)
  ∧ (∀ r, getRenderer env options = Ret r
       ↔ ∃ before after, Main_renderers env = before ++ r :: after
           ∧ matches r l ∧ ∀ r', r' ∈ before → ¬ matches r' l)
  ∧ ((∀ r, r ∈ Main_renderers env → ¬ matches r l) →
     ∀ w : CW, run_sync (getRenderer env options) w
       = halt (Exited 1) (log (Out (ConsoleError (not_yet_supported l))) w)).
Proof.
  intros Hl.
  assert (Hnone : (∀ r, r ∈ Main_renderers env → ¬ matches r l) →
    getRenderer env options = Emit (ConsoleError (not_yet_supported l)) (Exit 1))
    by apply getRenderer_unsupported, Hl.
  unfold getRenderer in *. rewrite Hl in *.
  set (test := λ r : Renderer, negb _) in *.
  assert (Hfirst : ∀ r, find test (Main_renderers env) = Some r
    ↔ ∃ before after, Main_renderers env = before ++ r :: after
        ∧ matches r l ∧ ∀ r', r' ∈ before → ¬ matches r' l).
  { intros r. rewrite find_first.
    split; intros (before & after & Heq & Hr & Hb); exists before, after;
      (split_and!; [done|by apply indexOf_matches
                   |intros; by apply matches_test, Hb]). }
  split_and!.
  - split.
    + intros [r Hr]. destruct (find test _) as [r'|] eqn:Hfind; [|done].
      destruct (proj1 (Hfirst r') eq_refl) as (before & after & Heq & Hm & _).
      exists r'. split; [|done]. rewrite Heq.
      apply elem_of_app. right. by left.
    + intros (r & Hr & Hm). destruct (find test _) as [r'|] eqn:Hfind.
      * by exists r'.
      * exfalso. apply find_nothing with (y := r) in Hfind; [|done].
        by apply matches_test in Hfind.
  - intros r. rewrite <- Hfirst.
    destruct (find test _) as [r'|];
      cbv [mret mbind Prog_ret Prog_bind console_error bind process_exit];
      split; congruence.
  - intros Hno w. by rewrite (Hnone Hno).
Qed.

(** C6.  With no target-language flag: when an output destination is
    given and has an extension, the language selected is that extension
    without its leading dot; when it has no extension, the whole run
    consists of the message on standard error and the exit with status 1,
    so nothing is resolved, rendered or written; and with no output
    destination the language is the fixed fallback. *)
Theorem inferLang_selects (args : list string) (options : Options) :
  truthy (lang options) = None →
  (∀ o, truthy (out options) = Some o → path_extname o ≠ "" →
     inferLang (JSON:=JSON) options = Ret (substr (path_extname o) 1)
     ∧ path_extname o = "." +:+ substr (path_extname o) 1)
  ∧ (∀ o, truthy (out options) = Some o → path_extname o = "" →
     ∀ schedule,
       run response schedule (main env args options)
       = halt (Exited 1) (log (Out (ConsoleError please_specify)) initial))
  ∧ (truthy (out options) = None → inferLang (JSON:=JSON) options = Ret "go").
Proof.
  intros Hlang. split_and!.
  - intros o Ho Hext. unfold inferLang. rewrite Ho.
    destruct (String.eqb_spec (path_extname o) "") as [|_]; [done|].
    split; [done|].
    destruct (path_extname_dot o) as [|[e ->]]; [done|]. reflexivity.
  - intros o Ho Hext schedule. unfold run, main, inferLang.
    rewrite Hlang, Ho, Hext. simpl. by apply run_loop_ended.
  - intros Ho. unfold inferLang. by rewrite Ho.
Qed.

(** C5, at two inputs.  For the output destination [foo.json.js] the
    extension is [.js] and the name inferred is [fooon.js], not [foo.json]:
    the first occurrence of the extension is removed, which here is not
    the one that ends the filename.  And with neither an output
    destination nor sources, no name is inferred: [options.src] is
    [undefined] and reading its [length] throws. *)
Theorem inferTopLevel_slips :
  let named := {| out := Some "foo.json.js"; top_level := None;
                  lang := None; src_lang := "json"; src := Some ["data.json"];
                  urls_from := None; help := false |} in
  let bare := {| out := None; top_level := None; lang := Some "go";
                 src_lang := "json"; src := None; urls_from := None;
                 help := false |} in
  path_basename "foo.json.js" = "foo.json.js"
  ∧ path_extname "foo.json.js" = ".js"
  ∧ inferTopLevel (JSON:=JSON) named = Ret "fooon.js"
  ∧ inferTopLevel (JSON:=JSON) bare
    = Throw "TypeError: Cannot read property 'length' of undefined"
  ∧ ∀ schedule,
      status (run response schedule (main env ["-l"; "go"] bare))
      = Crashed "TypeError: Cannot read property 'length' of undefined".
Proof.
  split_and!; try reflexivity.
  intros schedule. unfold run. by rewrite run_loop_ended.
Qed.

(** The extension is stripped when it occurs nowhere in the filename but
    at its end. *)
Lemma prefix_same (s : string) : String.prefix s s = true.
Proof.
  induction s as [|c s IH]; [done|]. simpl.
  by destruct (ascii_dec c c).
Qed.

Lemma substr_all (s : string) : substr s (String.length s) = "".
Proof. induction s as [|c s IH]; [done|]. exact IH. Qed.

Lemma replace_unfold (s pattern replacement : string) :
  replace s pattern replacement
  = if String.prefix pattern s
    then replacement +:+ substr s (String.length pattern)
    else match s with
         | EmptyString => EmptyString
         | String c s => String c (replace s pattern replacement)
         end.
Proof. by destruct s. Qed.

Lemma replace_suffix (stem ext : string) :
  (∀ i, i < String.length stem →
     String.prefix ext (substr (stem +:+ ext) i) = false) →
  replace (stem +:+ ext) ext "" = stem.
Proof.
  induction stem as [|c stem IH]; intros Hfirst.
  - change ("" +:+ ext) with ext.
    by rewrite replace_unfold, prefix_same, substr_all.
  - change (String c stem +:+ ext) with (String c (stem +:+ ext)) in *.
    rewrite replace_unfold.
    assert (String.prefix ext (String c (stem +:+ ext)) = false) as ->
      by (apply (Hfirst 0); simpl; lia).
    f_equal. apply IH. intros i Hi.
    apply (Hfirst (S i)). simpl. lia.
Qed.

(** The example of the specification: [-o Foo.cs] selects [cs] and the
    top-level name [Foo]. *)
Example Foo_cs_selects :
  inferLang (JSON:=JSON) foo_cs_options = Ret "cs"
  ∧ inferTopLevel (JSON:=JSON) foo_cs_options = Ret "Foo".
Proof. by split. Qed.

End CliFacts.

(** ** Whole invocations *)

Section Invocations.
Context {JSON : Type}.
Variable env : Env JSON.
Variable response : ∀ q : Request, option (Answer (JSON:=JSON) q).

Abbreviation CW := (World Effect Request (Answer (JSON:=JSON)) (list JSON)).

(** [main] once the two names are settled. *)
Lemma main_settled (args : list string) (options : Options) (l t : string) :
  selects_lang (JSON:=JSON) options l → selects_top_level (JSON:=JSON) options t →
  main env args options
  = let options_src := default [] (src options) in
    let options' := set_src options_src (set_top_level t (set_lang l options)) in
    if (length args =? 0) || help options then usage env
    else
      match truthy (urls_from options) with
      | Some file =>
          Emit (FileRead file)
            match fs_readFileSync env file with
            | None => Throw "Error: ENOENT"
            | Some text =>
                match JSON_parse env text with
                | None => Throw "SyntaxError"
                | Some json =>
                    match Main_urlsFromJsonGrammar env json with
                    | Left result =>
                        console_error ("Error: " +:+ result);; process_exit 1
                    | Right result =>
                        mapObjectValuesC [] result (parseFileOrUrlArray env)
                          (renderAndOutput env options')
                    end
                end
            end
      | None =>
          if length options_src =? 0
          then parseJsonFromStream process_stdin
                 (λ json, workFromJsonArray env options' [json])
          else if length options_src =? 1
          then parseFileOrUrlArray env options_src
                 (workFromJsonArray env options')
          else (usage env;; process_exit 1)
      end.
Proof.
  intros Hl Ht. unfold main.
  assert (Hlang : match truthy (lang options) with
                  | Some l0 => mret l0
                  | None => inferLang (JSON:=JSON) options
                  end = Ret l).
  { destruct Hl as [->|[-> ->]]; reflexivity. }
  assert (Htop : match truthy (top_level options) with
                 | Some t0 => mret t0
                 | None => inferTopLevel (JSON:=JSON) (set_lang l options)
                 end = Ret t).
  { destruct Ht as [->|[-> Ht]]; [reflexivity|exact Ht]. }
  rewrite Hlang. cbv [mbind Prog_bind]. cbn [bind].
  cbn [top_level set_lang]. rewrite Htop. reflexivity.
Qed.

(** C4, amended.  A language that no renderer of the catalogue matches is
    found out at the render step, which comes after the sources have been
    resolved and parsed: there the message is written to standard error
    and the process exits with status 1, the engine is not invoked and
    nothing is written; nothing happens afterwards. *)
Theorem unsupported_language_at_render (options : Options) (l : string)
    (jsonArrayMap : JsonArrayMap JSON)
    (w : CW) :
  lang options = Some l →
  (∀ r, r ∈ Main_renderers env → ¬ matches r l) →
  src_lang options = "json" ∨ src_lang options = "schema" →
  let w' := run_sync (renderAndOutput env options jsonArrayMap) w in
  w' = halt (Exited 1) (log (Out (ConsoleError (not_yet_supported l))) w)
  ∧ ∀ schedule, run_loop response schedule w' = w'.
Proof.
  intros Hl Hnone Hsrc w'.
  assert (Hw' : w'
    = halt (Exited 1) (log (Out (ConsoleError (not_yet_supported l))) w)).
  { subst w'. unfold renderAndOutput, renderFromJsonArrayMap.
    rewrite (getRenderer_unsupported env options l Hl Hnone).
    by destruct Hsrc as [->| ->]. }
  rewrite Hw'. split; [done|]. intros schedule. by apply run_loop_ended.
Qed.

(** C7, amended.  With at least one argument, no help flag, no grammar
    file and no positional source, and when the language and the
    top-level name are given or inferred, the top-level name being another
    one than [__proto__], the script starts the parse of standard input and
    nothing else; when that parse completes with the sample [json], the
    render step runs on the aggregate that binds the top-level name to the
    one-element sequence [[json]]. *)
Theorem stdin_mode (args : list string) (options : Options) (l t : string)
    (json : JSON) :
  args ≠ [] → help options = false →
  truthy (urls_from options) = None → default [] (src options) = [] →
  selects_lang (JSON:=JSON) options l → selects_top_level (JSON:=JSON) options t →
  t ≠ "__proto__" →
  response (Parse process_stdin) = Some json →
  let options' := set_src [] (set_top_level t (set_lang l options)) in
  trace (run response [] (main env args options)) = [Start (Parse process_stdin)]
  ∧ ∀ schedule,
      run response (0 :: schedule) (main env args options)
      = run_loop response schedule
          (run_sync (renderAndOutput env options' (<[t := [json]]> ∅))
             (log (Done (Parse process_stdin))
                (log (Start (Parse process_stdin)) initial))).
Proof.
  intros Hargs Hhelp Hurls Hsrc Hl Ht Hproto Hjson options'.
  rewrite (main_settled args options l t Hl Ht). cbn zeta.
  rewrite Hhelp, Hurls, Hsrc.
  destruct args as [|a args]; [done|]. simpl length. cbn [Nat.eqb orb].
  split; [reflexivity|]. intros schedule.
  unfold run. simpl. unfold fire. simpl. rewrite Hjson.
  unfold workFromJsonArray, set_property.
  cbn [top_level set_src set_top_level]. change (js_string (Some t)) with t.
  by destruct (String.eqb_spec t "__proto__").
Qed.

(** C9, amended.  With more than one positional source, no grammar file
    and no help flag, and when the language is given or inferred, the
    whole run consists of the usage text and the exit with status 1:
    no source is resolved and nothing is rendered. *)
Theorem many_sources_usage (args : list string) (options : Options)
    (srcs : list string) (l : string) :
  src options = Some srcs → 2 ≤ length srcs → srcs ⊆ args →
  help options = false → truthy (urls_from options) = None →
  selects_lang (JSON:=JSON) options l →
  ∀ schedule,
    run response schedule (main env args options)
    = halt (Exited 1) (log (Out (ConsoleLog (getUsage_sections env))) initial).
Proof.
  intros Hsrc Hlen Hsub Hhelp Hurls Hl schedule.
  assert (Ht : ∃ t, selects_top_level (JSON:=JSON) options t).
  { unfold selects_top_level, inferTopLevel.
    destruct (truthy (top_level options)) as [t|]; [by eauto|].
    destruct (truthy (out options)) as [o|]; [by eauto|].
    rewrite Hsrc. destruct srcs as [|s1 [|s2 srcs]]; simpl in Hlen; [lia..|].
    by eauto. }
  destruct Ht as [t Ht].
  rewrite (main_settled args options l t Hl Ht). cbn zeta.
  rewrite Hhelp, Hurls, Hsrc. simpl default.
  destruct srcs as [|s1 [|s2 srcs]]; simpl in Hlen; [lia..|].
  destruct args as [|a args].
  { exfalso. assert (s1 ∈ @nil string) by (apply Hsub; by left).
    by eapply elem_of_nil. }
  simpl length. cbn [Nat.eqb orb].
  unfold run. by apply run_loop_ended.
Qed.

(** *** What is written is generated code *)

Lemma writes_rendered_bind {X Y} (m : CliProg JSON X) (f : X → CliProg JSON Y) :
  writes_rendered env m → (∀ x, writes_rendered env (f x)) →
  writes_rendered env (m ≫= f).
Proof.
  intros Hm Hf. cbv [mbind Prog_bind CliProg] in *.
  induction m as [x|code|err|e k IH|q cb IHcb k IH|k IH|o key v k IH|o k IH];
    simpl in *; try done.
  - destruct Hm as [He Hk]. split; auto.
  - destruct Hm as [Hcb Hk]. split; auto.
  - intros o. auto.
  - auto.
  - intros props. auto.
Qed.

Lemma run_sync_safe {X} (p : CliProg JSON X) :
  writes_rendered env p → ∀ w : CW, safe env w → safe env (run_sync p w).
Proof.
  cbv [CliProg] in p.
  induction p as [X x|X code|X err|X e k IH|X q cb IHcb k IH|X k IH|X o key v k IH|X o k IH];
    simpl; intros Hp w Hw; try done.
  - destruct Hp as [He Hk]. apply IH; [done|].
    destruct Hw as (Hf & Hs & Hpend). split_and!; simpl.
    + intros path data [Hin|Hin]%elem_of_app; [by eapply Hf|].
      apply list_elem_of_singleton in Hin. by simplify_eq.
    + intros data [Hin|Hin]%elem_of_app; [by eapply Hs|].
      apply list_elem_of_singleton in Hin. by simplify_eq.
    + done.
  - destruct Hp as [Hcb Hk]. apply IH; [done|].
    destruct Hw as (Hf & Hs & Hpend). split_and!; simpl.
    + intros path data [Hin|Hin]%elem_of_app; [by eapply Hf|].
      apply list_elem_of_singleton in Hin. by simplify_eq.
    + intros data [Hin|Hin]%elem_of_app; [by eapply Hs|].
      apply list_elem_of_singleton in Hin. by simplify_eq.
    + intros p [Hin|Hin]%elem_of_app; [by apply Hpend|].
      apply list_elem_of_singleton in Hin. subst p. exact Hcb.
  - apply IH; [done|]. exact Hw.
  - apply IH; [done|]. exact Hw.
  - apply IH; [done|]. exact Hw.
Qed.
Lemma fire_safe i (w : CW) : safe env w → safe env (fire response i w).
Proof.
  intros Hw. unfold fire. destruct (status w); try done.
  destruct (pending w !! i) as [p|] eqn:Hp; [|done].
  assert (Hw' : ∀ ev, (∀ path data, ev ≠ Out (FileWrite path data)) →
    (∀ data, ev ≠ Out (StdoutWrite data)) → safe env (log ev (unregister i w))).
  { intros ev Hev1 Hev2. destruct Hw as (Hf & Hs & Hpend). split_and!; simpl.
    - intros path data [Hin|Hin]%elem_of_app; [by eapply Hf|].
      apply list_elem_of_singleton in Hin. by edestruct Hev1.
    - intros data [Hin|Hin]%elem_of_app; [by eapply Hs|].
      apply list_elem_of_singleton in Hin. by edestruct Hev2.
    - intros p' Hin. apply Hpend.
      by eapply list_elem_of_delete_inv. }
  destruct (response (p_req p)) as [a|].
  - apply run_sync_safe; [|by apply Hw'].
    destruct Hw as (_ & _ & Hpend). apply Hpend.
    by eapply list_elem_of_lookup_2.
  - by apply Hw'.
Qed.

Lemma run_loop_safe schedule : ∀ w : CW, safe env w → safe env (run_loop response schedule w).
Proof.
  induction schedule as [|i schedule IH]; intros w Hw; [done|].
  simpl. by apply IH, fire_safe.
Qed.

Lemma mapArrayC_writes_rendered {T U} (f : T → (U → CliProg JSON ()) → CliProg JSON ())
    (xs : list T) : ∀ continuation : list U → CliProg JSON (),
  (∀ t cont, (∀ u, writes_rendered env (cont u)) → writes_rendered env (f t cont)) →
  (∀ result, writes_rendered env (continuation result)) →
  writes_rendered env (mapArrayC xs f continuation).
Proof.
  induction xs as [|x xs IH]; intros continuation Hf Hc; simpl; [done|].
  apply Hf. intros first. apply IH; [done|]. intros rest. apply Hc.
Qed.

Lemma renderAndOutput_writes_rendered options jsonArrayMap :
  writes_rendered env (renderAndOutput env options jsonArrayMap).
Proof.
  unfold renderAndOutput, renderFromJsonArrayMap, getRenderer, fromRight.
  assert (Hpipe : ∀ (pipeline : Input JSON → Either string string) r,
    pipeline = Main_renderFromJsonArrayMap env
    ∨ pipeline = Main_renderFromJsonSchemaArrayMap env →
    writes_rendered env
      (output ← match pipeline {| input := jsonArrayMap; renderer := r |} with
                | Left result => console_error result;; process_exit 1
                | Right result => mret result
                end;
       match truthy (out options) with
       | Some options_out => Emit (FileWrite options_out output) (Ret tt)
       | None => Emit (StdoutWrite output) (Ret tt)
       end)).
  { intros pipeline r Hp.
    destruct (pipeline _) as [message|output] eqn:Hout; simpl; [done|].
    assert (rendered env output).
    { exists {| input := jsonArrayMap; renderer := r |}.
      destruct Hp as [->| ->]; auto. }
    by destruct (truthy (out options)). }
  destruct (String.eqb (src_lang options) "json").
  - destruct (find _ _) as [r|]; simpl; [|done]. apply Hpipe. by left.
  - destruct (String.eqb (src_lang options) "schema"); [|done].
    destruct (find _ _) as [r|]; simpl; [|done]. apply Hpipe. by right.
Qed.

Lemma parseFileOrUrl_writes_rendered fileOrUrl (cont : JSON → CliProg JSON ()) :
  (∀ json, writes_rendered env (cont json)) →
  writes_rendered env (parseFileOrUrl env fileOrUrl cont).
Proof.
  intros Hc. unfold parseFileOrUrl, parseJsonFromStream.
  destruct (fs_existsSync env fileOrUrl); simpl; auto.
Qed.

Lemma main_writes_rendered args options :
  writes_rendered env (main env args options).
Proof.
  unfold main.
  apply writes_rendered_bind.
  { destruct (truthy (lang options)); [done|]. unfold inferLang.
    destruct (truthy (out options)); [|done].
    by destruct (String.eqb _ _). }
  intros l. apply writes_rendered_bind.
  { destruct (truthy (top_level _)); [done|]. unfold inferTopLevel.
    destruct (truthy (out _)); [done|].
    destruct (src _) as [[|? [|]]|]; done. }
  intros t. cbv zeta.
  set (options' := set_src _ _).
  destruct (_ || _); [done|].
  destruct (truthy (urls_from _)) as [file|].
  - simpl. split; [done|].
    destruct (fs_readFileSync env file) as [text|]; [|done].
    destruct (JSON_parse env text) as [json|]; [|done].
    destruct (Main_urlsFromJsonGrammar env json) as [message|result]; [done|].
    unfold mapObjectValuesC. simpl. intros resultObject.
    apply mapArrayC_writes_rendered.
    + intros key cont Hcont. unfold parseFileOrUrlArray.
      apply mapArrayC_writes_rendered.
      * intros s c Hc. by apply parseFileOrUrl_writes_rendered.
      * intros samples. simpl. apply Hcont.
    + intros _. simpl. intros props. apply renderAndOutput_writes_rendered.
  - destruct (length _ =? 0).
    + simpl. split; [|done]. intros json. apply renderAndOutput_writes_rendered.
    + destruct (length _ =? 1); [|done].
      unfold parseFileOrUrlArray. apply mapArrayC_writes_rendered.
      * intros s c Hc. by apply parseFileOrUrl_writes_rendered.
      * intros samples. apply renderAndOutput_writes_rendered.
Qed.

(** C8.  When the engine answers the render request with an error
    payload, the payload is written to standard error and the process
    exits with status 1; nothing else is added to the trace, so no output
    file is written, and nothing happens afterwards.  And in every run of
    the script, whatever is written to a file is a success payload of the
    engine. *)
Theorem render_error_no_output (options : Options)
    (jsonArrayMap : JsonArrayMap JSON) (pipeline : Input JSON → Either string string)
    (r : Renderer) (message : string) (w : CW) :
  (src_lang options = "json" ∧ pipeline = Main_renderFromJsonArrayMap env
   ∨ src_lang options = "schema"
     ∧ pipeline = Main_renderFromJsonSchemaArrayMap env) →
  getRenderer env options = Ret r →
  pipeline {| input := jsonArrayMap; renderer := r |} = Left message →
  let w' := run_sync (renderAndOutput env options jsonArrayMap) w in
  w' = halt (Exited 1) (log (Out (ConsoleError message)) w)
  ∧ trace w' = trace w ++ [Out (ConsoleError message)]
  ∧ status w' = Exited 1
  ∧ (∀ schedule, run_loop response schedule w' = w')
  ∧ ∀ args options0 schedule path data,
      Out (FileWrite path data)
        ∈ trace (run response schedule (main env args options0)) →
      rendered env data.
Proof.
  intros Hpipe Hr Hleft w'.
  assert (Hw' : w' = halt (Exited 1) (log (Out (ConsoleError message)) w)).
  { subst w'. unfold renderAndOutput, renderFromJsonArrayMap.
    destruct Hpipe as [[-> ->]|[-> ->]]; simpl; rewrite Hr; simpl;
      rewrite Hleft; reflexivity. }
  rewrite Hw'. split_and!; try done.
  - intros schedule. by apply run_loop_ended.
  - intros args options0 schedule path data.
    assert (safe env (run response schedule (main env args options0)))
      as (Hf & _); [|by apply Hf].
    apply run_loop_safe, run_sync_safe; [apply main_writes_rendered|].
    split_and!; simpl.
    + intros ? ? H. by apply elem_of_nil in H.
    + intros ? H. by apply elem_of_nil in H.
    + intros ? H. by apply elem_of_nil in H.
Qed.

End Invocations.

(** ** Concrete runs *)

Lemma klingon_unsupported (r : Renderer) :
  r ∈ Main_renderers sample_env → ¬ matches r "klingon".
Proof.
  simpl. intros Hr [H|[H|H]];
    apply elem_of_cons in Hr as [->|Hr];
    try apply list_elem_of_singleton in Hr as ->; simpl in H; discriminate H.
Qed.

(** C4 as stated fails: with the unsupported language [klingon] and the
    source [f.json], the file is opened and its parse started while the
    process is still running; the message and the exit come only when the
    parse has completed. *)
Lemma unsupported_language_found_late :
  (∀ r, r ∈ Main_renderers sample_env → ¬ matches r "klingon")
  ∧ trace (run sample_response []
             (main sample_env ["-l"; "klingon"; "f.json"] klingon_options))
    = [Out (FileOpen "f.json"); Start (Parse (ReadStream "f.json"))]
  ∧ status (run sample_response []
              (main sample_env ["-l"; "klingon"; "f.json"] klingon_options))
    = Running
  ∧ trace (run sample_response [0]
             (main sample_env ["-l"; "klingon"; "f.json"] klingon_options))
    = [Out (FileOpen "f.json"); Start (Parse (ReadStream "f.json"));
       Done (Parse (ReadStream "f.json"));
       Out (ConsoleError (not_yet_supported "klingon"))]
  ∧ status (run sample_response [0]
              (main sample_env ["-l"; "klingon"; "f.json"] klingon_options))
    = Exited 1.
Proof. split; [exact klingon_unsupported|]. by vm_compute. Qed.

(** C7 as stated fails: with an output destination that has no extension
    and no language flag, an invocation without sources never reads
    standard input; its whole run is the message and the exit. *)
Lemma stdin_mode_needs_a_language :
  help bare_out_options = false
  ∧ truthy (urls_from bare_out_options) = None
  ∧ src bare_out_options = None
  ∧ ∀ schedule,
      run sample_response schedule (main sample_env ["-o"; "foo"] bare_out_options)
      = halt (Exited 1) (log (Out (ConsoleError please_specify)) initial).
Proof.
  split_and!; try reflexivity.
  intros schedule. unfold run. by rewrite run_loop_ended.
Qed.

(** C9 as stated fails: with two sources, an output destination that has
    no extension and no language flag, the usage text is not displayed;
    the whole run is the message about the language and the exit. *)
Lemma many_sources_needs_a_language :
  help two_sources_bare_out_options = false
  ∧ truthy (urls_from two_sources_bare_out_options) = None
  ∧ src two_sources_bare_out_options = Some ["a.json"; "b.json"]
  ∧ ∀ schedule,
      run sample_response schedule
        (main sample_env ["-o"; "foo"; "a.json"; "b.json"]
           two_sources_bare_out_options)
      = halt (Exited 1) (log (Out (ConsoleError please_specify)) initial).
Proof.
  split_and!; try reflexivity.
  intros schedule. unfold run. by rewrite run_loop_ended.
Qed.

Lemma getRenderer_first_match_witness :
  getRenderer sample_env schema_options = Ret golang.
Proof.
  apply (proj1 (proj2
    (getRenderer_first_match sample_env schema_options "golang" eq_refl))).
  exists [csharp], []. split_and!.
  - reflexivity.
  - right. left. reflexivity.
  - intros r' ->%list_elem_of_singleton [H|[H|H]]; simpl in H; discriminate H.
Defined.

Lemma inferLang_selects_witness :
  inferLang (JSON:=nat) foo_cs_options = Ret "cs".
Proof.
  apply (proj1 (inferLang_selects sample_env sample_response []
                  foo_cs_options eq_refl) "Foo.cs" eq_refl).
  vm_compute. discriminate.
Defined.

Lemma render_error_no_output_witness :
  run_sync (renderAndOutput sample_env schema_options ∅) initial
  = halt (Exited 1) (log (Out (ConsoleError "bad schema")) initial).
Proof.
  apply (render_error_no_output sample_env sample_response schema_options ∅
           (Main_renderFromJsonSchemaArrayMap sample_env) golang "bad schema"
           initial).
  - right. split; reflexivity.
  - reflexivity.
  - reflexivity.
Defined.

Lemma unsupported_language_at_render_witness :
  run_sync (renderAndOutput sample_env klingon_options ∅) initial
  = halt (Exited 1)
      (log (Out (ConsoleError (not_yet_supported "klingon"))) initial).
Proof.
  apply (unsupported_language_at_render sample_env sample_response
           klingon_options "klingon" ∅ initial).
  - reflexivity.
  - exact klingon_unsupported.
  - left. reflexivity.
Defined.

Lemma stdin_mode_witness :
  trace (run sample_response [] (main sample_env ["-o"; "Foo.cs"] foo_cs_options))
  = [Start (Parse process_stdin)].
Proof.
  apply (stdin_mode sample_env sample_response ["-o"; "Foo.cs"] foo_cs_options
           "cs" "Foo" 7).
  - discriminate.
  - reflexivity.
  - reflexivity.
  - reflexivity.
  - right. split; reflexivity.
  - right. split; reflexivity.
  - discriminate.
  - reflexivity.
Defined.

Lemma many_sources_usage_witness :
  run sample_response [0; 1]
    (main sample_env ["-l"; "go"; "a.json"; "b.json"] two_sources_options)
  = halt (Exited 1) (log (Out (ConsoleLog "usage")) initial).
Proof.
  apply (many_sources_usage sample_env sample_response
           ["-l"; "go"; "a.json"; "b.json"] two_sources_options
           ["a.json"; "b.json"] "go").
  - reflexivity.
  - simpl. lia.
  - intros s Hs. do 2 right. exact Hs.
  - reflexivity.
  - reflexivity.
  - left. reflexivity.
Defined.

(** * Part III: further properties of the code *)

(** ** Calls that settle after a number of completions *)

Section SettleFacts.
Context {E : Type} {Q : Type} {Rsp : Q → Type} {V : Type}.
Variable response : ∀ q : Q, option (Rsp q).
Implicit Types (w : World E Q Rsp V) (schedule : list nat).
Implicit Types (p k : Prog E Q Rsp V ()).

Lemma after_fires_zero schedule : after_fires schedule 0 = Some schedule.
Proof. by destruct schedule. Qed.

Lemma after_fires_add schedule : ∀ n m rest,
  after_fires schedule (n + m) = Some rest →
  ∃ mid, after_fires schedule n = Some mid ∧ after_fires mid m = Some rest.
Proof.
  induction schedule as [|i schedule IH]; intros n m rest Hrest.
  - destruct n as [|n]; [|done]. exists []. by rewrite after_fires_zero.
  - destruct n as [|n].
    + exists (i :: schedule). by rewrite after_fires_zero.
    + destruct i as [|i]; simpl in *; by apply IH.
Qed.

Lemma extend_app (evs1 evs2 : list (Event E Q)) w :
  extend evs2 (extend evs1 w) = extend (evs1 ++ evs2) w.
Proof. unfold extend. simpl. by rewrite app_assoc. Qed.

Lemma extend_nil w : extend [] w = w.
Proof. destruct w. unfold extend. simpl. by rewrite app_nil_r. Qed.

Lemma log_extend (ev : Event E Q) w : log ev w = extend [ev] w.
Proof. reflexivity. Qed.

Lemma calm_extend (evs : list (Event E Q)) : calm (V:=V) (Rsp:=Rsp) (extend evs).
Proof. by intros w. Qed.

Lemma calm_compose (eff1 eff2 : World E Q Rsp V → World E Q Rsp V) :
  calm eff1 → calm eff2 → calm (λ w, eff2 (eff1 w)).
Proof.
  intros H1 H2 w. destruct (H1 w) as [<- <-]. apply H2.
Qed.

Lemma settles_now p : settles response p 0 p (λ w, w).
Proof.
  intros w schedule rest _ _ Hrest.
  rewrite after_fires_zero in Hrest. by simplify_eq.
Qed.

Lemma settles_trans p k k' n m eff eff' :
  settles response p n k eff → calm eff →
  settles response k m k' eff' →
  settles response p (n + m) k' (λ w, eff' (eff w)).
Proof.
  intros Hp Hcalm Hk w schedule rest Hpend Hrun Hrest.
  apply after_fires_add in Hrest as (mid & Hmid & Hrest).
  rewrite (Hp w schedule mid Hpend Hrun Hmid).
  destruct (Hcalm w) as [Hpend' Hrun'].
  apply Hk; [congruence..|done].
Qed.

(** A synchronous prefix does not count. *)
Lemma settles_sync p k k' n eff (g : World E Q Rsp V → World E Q Rsp V) :
  settles response p n k eff →
  (∀ w, run_sync k w = run_sync k' (g w)) →
  settles response p n k' (λ w, g (eff w)).
Proof.
  intros Hp Hk w schedule rest Hpend Hrun Hrest.
  rewrite (Hp w schedule rest Hpend Hrun Hrest). by rewrite Hk.
Qed.

Lemma settles_emit (e : E) p k n eff :
  settles response p n k eff →
  settles response (Emit e p) n k (λ w, eff (log (Out e) w)).
Proof.
  intros Hp w schedule rest Hpend Hrun Hrest. simpl. by apply Hp.
Qed.

(** One asynchronous operation that the outside world answers. *)
Lemma settles_async (q : Q) (cb : Rsp q → Prog E Q Rsp V ()) (a : Rsp q) :
  response q = Some a →
  settles response (Async q cb (Ret tt)) 1 (cb a)
    (λ w, log (Done q) (log (Start q) w)).
Proof.
  intros Ha w schedule rest Hpend Hrun. simpl.
  induction schedule as [|i schedule IH]; intros Hrest; [done|].
  destruct i as [|i]; simpl in Hrest.
  - rewrite after_fires_zero in Hrest. simplify_eq. simpl.
    unfold fire. simpl. rewrite Hrun, Hpend. simpl. rewrite Ha.
    do 2 f_equal. unfold unregister, log, register. simpl. by rewrite Hpend.
  - simpl. rewrite fire_idle by (simpl; rewrite Hpend; simpl; lia).
    by apply IH.
Qed.

(** [mapArrayC] over transforms that settle: the continuation is called
    with the outcomes in the order of the inputs, after as many
    completions as the elements take together. *)
Lemma settles_mapArrayC {T U} (f : T → Continue E Q Rsp V U → Prog E Q Rsp V ())
    (R : T → U → Prop) (cost : T → nat)
    (eff : T → World E Q Rsp V → World E Q Rsp V) :
  (∀ t u cont, R t u → settles response (f t cont) (cost t) (cont u) (eff t)) →
  (∀ t, calm (eff t)) →
  ∀ xs us continuation, Forall2 R xs us →
    settles response (mapArrayC xs f continuation) (sum_list (cost <$> xs))
      (continuation us) (λ w, foldl (λ w t, eff t w) w xs).
Proof.
  intros Hf Hcalm xs us continuation HR. revert continuation.
  induction HR as [|x u xs us Hxu HR IH]; intros continuation.
  - apply settles_now.
  - exact (settles_trans _ _ _ _ _ _ _
             (Hf x u (λ first, mapArrayC xs f
                        (λ rest, continuation ([first] ++ rest))) Hxu)
             (Hcalm x) (IH (λ rest, continuation ([u] ++ rest)))).
Qed.

Lemma calm_fold {T} (eff : T → World E Q Rsp V → World E Q Rsp V) (xs : list T) :
  (∀ t, calm (eff t)) → calm (λ w, foldl (λ w t, eff t w) w xs).
Proof.
  intros Hcalm. induction xs as [|x xs IH] using rev_ind; [done|].
  intros w. rewrite foldl_app. simpl.
  destruct (IH w) as [<- <-]. apply Hcalm.
Qed.

End SettleFacts.

(** ** The mappers, once more *)

Section MapperFacts.
Context {E : Type} {Q : Type} {Rsp : Q → Type} {V : Type}.

(** X1.  With a transform that calls back at once, [mapArrayC] is the
    ordinary map: the final continuation is called, synchronously, with
    the outcomes in the order of the inputs. *)
Theorem mapArrayC_immediately {T U} (g : T → U) (xs : list T) :
  ∀ continuation : Continue E Q Rsp V (list U),
    mapArrayC xs (immediately g) continuation = continuation (g <$> xs).
Proof.
  induction xs as [|x xs IH]; intros continuation; [done|].
  simpl. unfold immediately at 1. by rewrite IH.
Qed.

End MapperFacts.

Section AllOrNothing.
Context {T U : Type}.
Variable response : T → option U.

Abbreviation AW := (World (list U) T (λ _, U) ()).
Abbreviation AP := (Prog (list U) T (λ _, U) ()).

Lemma run_sync_hushed {X} (p : AP X) :
  silent response p → ∀ w : AW, hushed response w → hushed response (run_sync p w).
Proof.
  induction p as [X x|X code|X err|X e k IH|X q cb IHcb k IH|X k IH
                  |X o key v k IH|X o k IH];
    simpl; intros Hp w Hw; try done.
  - destruct Hp as [Hcb Hk]. apply IH; [done|].
    destruct Hw as [Hout Hpend]. split; simpl.
    + by rewrite outputs_app, Hout.
    + intros p [Hin|Hin]%elem_of_app; [by apply Hpend|].
      apply list_elem_of_singleton in Hin. subst p. exact Hcb.
  - by apply IH.
  - by apply IH.
  - by apply IH.
Qed.

Lemma fire_hushed i (w : AW) : hushed response w → hushed response (fire response i w).
Proof.
  intros Hw. unfold fire. destruct (status w); try done.
  destruct (pending w !! i) as [p|] eqn:Hp; [|done].
  assert (Hw' : ∀ ev, outputs [ev] = [] →
    hushed response (log ev (unregister i w))).
  { intros ev Hev. destruct Hw as [Hout Hpend]. split; simpl.
    - by rewrite outputs_app, Hout, Hev.
    - intros p' Hin. apply Hpend. by eapply list_elem_of_delete_inv. }
  destruct (response (p_req p)) as [a|] eqn:Ha.
  - apply run_sync_hushed; [|by apply Hw'].
    destruct Hw as [_ Hpend]. apply Hpend; [|done].
    by eapply list_elem_of_lookup_2.
  - by apply Hw'.
Qed.

Lemma mapArrayC_silent (xs : list T) : ∀ continuation : list U → AP (),
  (∃ x, x ∈ xs ∧ response x = None) →
  silent response (mapArrayC xs transform continuation).
Proof.
  induction xs as [|x0 xs IH]; intros continuation (x & Hx & Hnone).
  - by apply elem_of_nil in Hx.
  - simpl. split; [|done]. intros a Ha. apply IH.
    apply elem_of_cons in Hx as [->|Hx]; [congruence|by eauto].
Qed.

(** X2.  All or nothing: when the operation on some element never
    completes, the final continuation is never called, whatever the
    schedule; no partial result is delivered. *)
Theorem mapArrayC_all_or_nothing (xs : list T) (x : T) (schedule : list nat) :
  x ∈ xs → response x = None →
  outputs (trace (run (V:=()) response schedule
                    (mapArrayC xs transform deliver))) = [].
Proof.
  intros Hx Hnone.
  assert (hushed response
    (run (V:=()) response schedule (mapArrayC xs transform deliver))) as [H _];
    [|done].
  unfold run. generalize (mapArrayC_silent xs deliver (ex_intro _ x (conj Hx Hnone))).
  intros Hsilent.
  assert (Hinit : hushed response
    (run_sync (mapArrayC xs transform deliver) (initial : AW))).
  { apply run_sync_hushed; [done|]. split; [done|].
    intros p Hp. by apply elem_of_nil in Hp. }
  revert Hinit. generalize (run_sync (mapArrayC xs transform deliver) (initial : AW)).
  induction schedule as [|i schedule IH]; intros w Hw; [done|].
  simpl. by apply IH, fire_hushed.
Qed.

End AllOrNothing.

Lemma mapArrayC_all_or_nothing_witness :
  outputs (trace (run (V:=()) (λ t, if t =? 2 then None else Some (2 * t))
                    [0; 0; 0; 0] (mapArrayC [1; 2; 3] transform deliver)))
  = [].
Proof.
  apply (mapArrayC_all_or_nothing
           (λ t, if t =? 2 then None else Some (2 * t)) [1; 2; 3] 2 [0; 0; 0; 0]).
  - right. left.
  - reflexivity.
Defined.

(** ** The resolution of sources *)

Section AggregationFacts.
Context {JSON : Type}.
Variable env : Env JSON.
Variable response : ∀ q : Request, option (Answer (JSON:=JSON) q).

Abbreviation GW := (World Effect Request (Answer (JSON:=JSON)) (list JSON)).

Lemma settles_ext (p k : CliProg JSON ()) n (eff eff' : GW → GW) :
  settles response p n k eff → (∀ w, eff w = eff' w) →
  settles response p n k eff'.
Proof.
  intros Hp Heq w schedule rest Hpend Hrun Hrest.
  rewrite <- Heq. by apply Hp.
Qed.

(** One source: a local file takes one asynchronous operation, the parse
    of its stream; anything else takes two, the request and the parse of
    the response body. *)
Lemma parseFileOrUrl_settles fileOrUrl json (cont : JSON → CliProg JSON ()) :
  sample_of env response fileOrUrl = Some json →
  settles response (parseFileOrUrl env fileOrUrl cont) (hops env fileOrUrl)
    (cont json) (extend (resolution env fileOrUrl)).
Proof.
  unfold sample_of, parseFileOrUrl, hops, resolution, parseJsonFromStream.
  destruct (fs_existsSync env fileOrUrl); intros Hjson.
  - eapply settles_ext.
    + apply settles_emit,
        (settles_async response (Parse (ReadStream fileOrUrl)) cont json Hjson).
    + intros w. unfold log, extend. simpl. by rewrite <- !app_assoc.
  - destruct (response (Fetch fileOrUrl)) as [[]|] eqn:Hfetch; [|done].
    eapply settles_ext.
    + eapply (settles_trans response _ _ _ 1 1).
      * apply (settles_async response (Fetch fileOrUrl) _ tt Hfetch).
      * by intros w.
      * apply (settles_async response (Parse (res_body fileOrUrl)) cont json
                 Hjson).
    + intros w. unfold log, extend. simpl. by rewrite <- !app_assoc.
Qed.

Lemma extend_fold (srcs : list string) : ∀ w : GW,
  foldl (λ w s, extend (resolution env s) w) w srcs
  = extend (srcs ≫= resolution env) w.
Proof.
  induction srcs as [|s srcs IH]; intros w; simpl.
  - by rewrite extend_nil.
  - by rewrite IH, extend_app.
Qed.

Lemma parseFileOrUrlArray_settles srcs samples
    (continuation : list JSON → CliProg JSON ()) :
  mapM (sample_of env response) srcs = Some samples →
  settles response (parseFileOrUrlArray env srcs continuation)
    (sum_list (hops env <$> srcs)) (continuation samples)
    (extend (srcs ≫= resolution env)).
Proof.
  intros Hsamples. apply mapM_Some in Hsamples.
  eapply settles_ext; [|apply extend_fold].
  unfold parseFileOrUrlArray.
  apply (settles_mapArrayC response (parseFileOrUrl env)
           (λ s json, sample_of env response s = Some json) (hops env)
           (λ s, extend (resolution env s))); [|by intros s w|done].
  intros s json cont Hs. by apply parseFileOrUrl_settles.
Qed.

(** X3.  The samples of a group of sources, local files and addresses
    mixed: when every source resolves and parses, then under every
    schedule in which the operations have completed, the continuation is
    called with one sample per source in the order of the sources, the
    sources having been resolved one after the other in that order. *)
Theorem parseFileOrUrlArray_in_order (srcs : list string) (samples : list JSON)
    (continuation : list JSON → CliProg JSON ()) (w : GW) (schedule : list nat) :
  mapM (sample_of env response) srcs = Some samples →
  pending w = [] → status w = Running →
  sum_list (hops env <$> srcs) ≤ completions schedule →
  length samples = length srcs
  ∧ ∃ rest,
      run_loop response schedule
        (run_sync (parseFileOrUrlArray env srcs continuation) w)
      = run_loop response rest
          (run_sync (continuation samples)
             (extend (srcs ≫= resolution env) w)).
Proof.
  intros Hsamples Hpend Hrun Hlen. split.
  - apply mapM_Some, Forall2_length in Hsamples. done.
  - destruct (after_fires_enough schedule _ Hlen) as [rest Hrest].
    exists rest.
    by apply (parseFileOrUrlArray_settles srcs samples continuation Hsamples).
Qed.

End AggregationFacts.

(** ** The modes of [main] *)

Section ModeFacts.
Context {JSON : Type}.
Variable env : Env JSON.
Variable response : ∀ q : Request, option (Answer (JSON:=JSON) q).

Abbreviation MW := (World Effect Request (Answer (JSON:=JSON)) (list JSON)).

(** X4.  One positional source: when the language and the top-level name
    are given or inferred, the top-level name being another one than
    [__proto__], and the source resolves and parses, then under every
    schedule in which its operations have completed the source has been
    resolved (a local file opened and parsed, anything else requested and
    its body parsed) and the render step runs on the aggregate that binds
    the top-level name to the one-element sequence of its sample. *)
Theorem single_source_mode (args : list string) (options : Options)
    (s l t : string) (json : JSON) (schedule : list nat) :
  args ≠ [] → help options = false → truthy (urls_from options) = None →
  src options = Some [s] →
  selects_lang (JSON:=JSON) options l →
  selects_top_level (JSON:=JSON) options t →
  t ≠ "__proto__" →
  sample_of env response s = Some json →
  hops env s ≤ completions schedule →
  let options' := set_src [s] (set_top_level t (set_lang l options)) in
  ∃ rest,
    run response schedule (main env args options)
    = run_loop response rest
        (run_sync (renderAndOutput env options' (<[t := [json]]> ∅))
           (extend (resolution env s) initial)).
Proof.
  intros Hargs Hhelp Hurls Hsrc Hl Ht Hproto Hjson Hlen options'.
  rewrite (main_settled env args options l t Hl Ht). cbn zeta.
  rewrite Hhelp, Hurls, Hsrc.
  destruct args as [|a args]; [done|]. simpl length. cbn [Nat.eqb orb default].
  assert (Hlen' : sum_list (hops env <$> [s]) ≤ completions schedule)
    by (simpl; lia).
  destruct (after_fires_enough schedule _ Hlen') as [rest Hrest].
  exists rest. unfold run.
  assert (Hsamples : mapM (sample_of env response) [s] = Some [json])
    by (simpl; by rewrite Hjson).
  rewrite (parseFileOrUrlArray_settles env response [s] [json] _ Hsamples
             initial schedule rest eq_refl eq_refl Hrest).
  simpl. rewrite app_nil_r. unfold workFromJsonArray, set_property.
  cbn [top_level set_src set_top_level]. change (js_string (Some t)) with t.
  by destruct (String.eqb_spec t "__proto__").
Qed.

(** X5.  Help: with the help flag, and when the language and the
    top-level name are given or inferred, the whole run is the usage
    text; the sources and the grammar file are not looked at, whatever
    they are, and the process does not exit with an error. *)
Theorem usage_only (args : list string) (options : Options) (l t : string)
    (schedule : list nat) :
  help options = true →
  selects_lang (JSON:=JSON) options l →
  selects_top_level (JSON:=JSON) options t →
  run response schedule (main env args options)
  = log (Out (ConsoleLog (getUsage_sections env))) initial.
Proof.
  intros Hhelp Hl Ht.
  rewrite (main_settled env args options l t Hl Ht). cbn zeta.
  rewrite Hhelp, orb_true_r.
  unfold run. by apply run_loop_quiet.
Qed.

(** X6.  A grammar whose expansion fails: the grammar file is read, the
    message of the engine is written to standard error after [Error: ],
    and the process exits with status 1; no source is resolved, whatever
    the positional sources. *)
Theorem grammar_error_exits (args : list string) (options : Options)
    (file text : string) (json : JSON) (message l t : string)
    (schedule : list nat) :
  args ≠ [] → help options = false →
  truthy (urls_from options) = Some file →
  fs_readFileSync env file = Some text →
  JSON_parse env text = Some json →
  Main_urlsFromJsonGrammar env json = Left message →
  selects_lang (JSON:=JSON) options l →
  selects_top_level (JSON:=JSON) options t →
  run response schedule (main env args options)
  = halt (Exited 1)
      (log (Out (ConsoleError ("Error: " +:+ message)))
         (log (Out (FileRead file)) initial)).
Proof.
  intros Hargs Hhelp Hurls Hread Hparse Hleft Hl Ht.
  rewrite (main_settled env args options l t Hl Ht). cbn zeta.
  rewrite Hhelp, Hurls, Hread, Hparse, Hleft.
  destruct args as [|a args]; [done|]. simpl length. cbn [Nat.eqb orb].
  unfold run. by apply run_loop_ended.
Qed.

(** X7.  A source-language selector other than [json] and [schema] that
    is no name inherited from [Object.prototype] is found out at the
    render step: its message is written to standard error and the process
    exits with status 1.  The catalogue of target languages is not
    consulted, so this message comes even when the target language is
    unsupported too. *)
Theorem unsupported_source_language (options : Options)
    (jsonArrayMap : JsonArrayMap JSON) (w : MW) :
  src_lang options ≠ "json" → src_lang options ≠ "schema" →
  src_lang options ∉ Object_prototype_names →
  run_sync (renderAndOutput env options jsonArrayMap) w
  = halt (Exited 1)
      (log (Out (ConsoleError (unsupported_input (src_lang options)))) w).
Proof.
  intros Hjson Hschema _. unfold renderAndOutput, renderFromJsonArrayMap.
  destruct (String.eqb_spec (src_lang options) "json") as [|_]; [done|].
  by destruct (String.eqb_spec (src_lang options) "schema") as [|_].
Qed.

(** X8.  When the engine answers the render request with generated code,
    the code is written once, to the output destination when one is
    given and to standard output otherwise, and the process goes on
    running: nothing is written to standard error and there is no exit
    with an error. *)
Theorem render_success_writes_once (options : Options)
    (jsonArrayMap : JsonArrayMap JSON)
    (pipeline : Input JSON → Either string string) (r : Renderer)
    (output : string) (w : MW) :
  (src_lang options = "json" ∧ pipeline = Main_renderFromJsonArrayMap env
   ∨ src_lang options = "schema"
     ∧ pipeline = Main_renderFromJsonSchemaArrayMap env) →
  getRenderer env options = Ret r →
  pipeline {| input := jsonArrayMap; renderer := r |} = Right output →
  run_sync (renderAndOutput env options jsonArrayMap) w
  = log (Out (match truthy (out options) with
              | Some options_out => FileWrite options_out output
              | None => StdoutWrite output
              end)) w.
Proof.
  intros Hpipe Hr Hright. unfold renderAndOutput, renderFromJsonArrayMap.
  destruct Hpipe as [[-> ->]|[-> ->]]; simpl; rewrite Hr; simpl;
    rewrite Hright; simpl; by destruct (truthy (out options)).
Qed.

(** X9.  The name [inferTopLevel] takes from a path, the output
    destination or else the single source: when the filename is a stem
    followed by its extension and the extension occurs nowhere in the
    filename before that, the name is the stem; and when the path has no
    extension the name is the whole filename. *)
Theorem inferTopLevel_strips (options : Options) (o stem : string) :
  name_source options = Some o →
  (path_basename o = stem +:+ path_extname o
   ∧ (∀ i, i < String.length stem →
        String.prefix (path_extname o) (substr (path_basename o) i) = false)
   ∨ path_extname o = "" ∧ path_basename o = stem) →
  inferTopLevel (JSON:=JSON) options = Ret stem.
Proof.
  intros Hsource Hname.
  assert (Hinfer : inferTopLevel (JSON:=JSON) options
    = Ret (replace (path_basename o) (path_extname o) "")).
  { unfold name_source in Hsource. unfold inferTopLevel.
    destruct (truthy (out options)) as [o'|]; [by simplify_eq|].
    destruct (src options) as [[|s [|]]|]; by simplify_eq. }
  rewrite Hinfer. f_equal.
  destruct Hname as [[Hbase Hfirst]|[Hext Hbase]].
  - rewrite Hbase in *. by apply replace_suffix.
  - rewrite Hext, Hbase. rewrite replace_unfold.
    by destruct stem.
Qed.

(** X10.  With neither an output destination nor a top-level name nor a
    positional source, the script throws before it does anything else:
    [inferTopLevel] reads the length of [options.src], which is still
    [undefined].  This holds for every argument list, the empty one and
    the help flag included, so the usage text is not displayed. *)
Theorem main_throws_without_names (args : list string) (options : Options)
    (schedule : list nat) :
  truthy (out options) = None → truthy (top_level options) = None →
  src options = None →
  run response schedule (main env args options)
  = halt (Crashed no_length) initial.
Proof.
  intros Hout Htop Hsrc. unfold run, main.
  assert (Hlang : ∃ l, match truthy (lang options) with
                       | Some l0 => mret l0
                       | None => inferLang (JSON:=JSON) options
                       end = Ret l).
  { destruct (truthy (lang options)) as [l|]; [by eexists|].
    unfold inferLang. rewrite Hout. by eexists. }
  destruct Hlang as [l ->]. cbv [mbind Prog_bind]. cbn [bind].
  cbn [top_level set_lang]. rewrite Htop.
  assert (inferTopLevel (JSON:=JSON) (set_lang l options) = Throw no_length)
    as ->.
  { unfold inferTopLevel. simpl. by rewrite Hout, Hsrc. }
  by apply run_loop_ended.
Qed.

End ModeFacts.

(** ** What holds at every moment of every run *)

Section InvariantFacts.
Context {E : Type} {Q : Type} {Rsp : Q → Type} {V : Type}.
Variable response : ∀ q : Q, option (Rsp q).
Implicit Types (w : World E Q Rsp V) (schedule : list nat).

Lemma quiet_serial {X} (p : Prog E Q Rsp V X) : quiet p → serial p.
Proof.
  induction p as [X x|X code|X err|X e k IH|X q cb IHcb k IH|X k IH
                  |X o key v k IH|X o k IH]; simpl; auto.
  done.
Qed.

Lemma quiet_bind {X Y} (m : Prog E Q Rsp V X) (f : X → Prog E Q Rsp V Y) :
  quiet m → (∀ x, quiet (f x)) → quiet (m ≫= f).
Proof.
  intros Hm Hf. cbv [mbind Prog_bind].
  induction m as [x|code|err|e k IH|q cb IHcb k IH|k IH|o key v k IH|o k IH];
    simpl in *; auto.
Qed.

Lemma serial_bind {X Y} (m : Prog E Q Rsp V X) (f : X → Prog E Q Rsp V Y) :
  quiet m → (∀ x, serial (f x)) → serial (m ≫= f).
Proof.
  intros Hm Hf. cbv [mbind Prog_bind].
  induction m as [x|code|err|e k IH|q cb IHcb k IH|k IH|o key v k IH|o k IH];
    simpl in *; auto.
  done.
Qed.

Lemma run_sync_quiet {X} (p : Prog E Q Rsp V X) :
  quiet p → ∀ w, pending (run_sync p w) = pending w.
Proof.
  induction p as [X x|X code|X err|X e k IH|X q cb IHcb k IH|X k IH
                  |X o key v k IH|X o k IH]; simpl; intros Hp w; try done.
  - by rewrite IH.
  - by rewrite IH.
  - by rewrite IH.
  - by rewrite IH.
Qed.

Lemma run_sync_serial {X} (p : Prog E Q Rsp V X) :
  serial p → ∀ w, pending w = [] → one_in_flight (run_sync p w).
Proof.
  induction p as [X x|X code|X err|X e k IH|X q cb IHcb k IH|X k IH
                  |X o key v k IH|X o k IH]; simpl; intros Hp w Hw;
    try (by left).
  - by apply IH.
  - destruct Hp as [Hcb Hk]. right.
    exists {| p_req := q; p_cb := cb |}.
    rewrite run_sync_quiet by done. simpl. by rewrite Hw.
  - by apply IH.
  - by apply IH.
  - by apply IH.
Qed.

Lemma fire_one_in_flight i w : one_in_flight w → one_in_flight (fire response i w).
Proof.
  intros Hw. unfold fire. destruct (status w); try done.
  destruct Hw as [Hw|(p & Hw & Hp)]; rewrite Hw.
  - by left.
  - destruct i as [|i]; simpl; [|by right; exists p].
    destruct (response (p_req p)) as [a|].
    + apply run_sync_serial; [done|]. simpl. by rewrite Hw.
    + left. simpl. by rewrite Hw.
Qed.

Lemma run_loop_one_in_flight schedule : ∀ w,
  one_in_flight w → one_in_flight (run_loop response schedule w).
Proof.
  induction schedule as [|i schedule IH]; intros w Hw; [done|].
  simpl. by apply IH, fire_one_in_flight.
Qed.

Lemma mapArrayC_serial {T U}
    (f : T → Continue E Q Rsp V U → Prog E Q Rsp V ()) (xs : list T) :
  ∀ continuation : Continue E Q Rsp V (list U),
    (∀ t cont, (∀ u, serial (cont u)) → serial (f t cont)) →
    (∀ result, serial (continuation result)) →
    serial (mapArrayC xs f continuation).
Proof.
  induction xs as [|x xs IH]; intros continuation Hf Hc; simpl; [done|].
  apply Hf. intros first. apply IH; [done|]. intros rest. apply Hc.
Qed.

Lemma emits_only_bind {X Y} (P : E → Prop) (m : Prog E Q Rsp V X)
    (f : X → Prog E Q Rsp V Y) :
  emits_only P m → (∀ x, emits_only P (f x)) → emits_only P (m ≫= f).
Proof.
  intros Hm Hf. cbv [mbind Prog_bind].
  induction m as [x|code|err|e k IH|q cb IHcb k IH|k IH|o key v k IH|o k IH];
    simpl in *; try done.
  - destruct Hm as [He Hk]. split; auto.
  - destruct Hm as [Hcb Hk]. split; auto.
  - intros o. auto.
  - auto.
  - intros props. auto.
Qed.

Lemma run_sync_kept {X} (P : E → Prop) (p : Prog E Q Rsp V X) :
  emits_only P p → ∀ w, kept P w → kept P (run_sync p w).
Proof.
  induction p as [X x|X code|X err|X e k IH|X q cb IHcb k IH|X k IH
                  |X o key v k IH|X o k IH]; simpl; intros Hp w Hw; try done.
  - destruct Hp as [He Hk]. apply IH; [done|].
    destruct Hw as [Htr Hpend]. split; simpl; [|done].
    intros e' [Hin|Hin]%elem_of_app; [by apply Htr|].
    apply list_elem_of_singleton in Hin. by simplify_eq.
  - destruct Hp as [Hcb Hk]. apply IH; [done|].
    destruct Hw as [Htr Hpend]. split; simpl.
    + intros e' [Hin|Hin]%elem_of_app; [by apply Htr|].
      by apply list_elem_of_singleton in Hin.
    + intros p [Hin|Hin]%elem_of_app; [by apply Hpend|].
      apply list_elem_of_singleton in Hin. subst p. exact Hcb.
  - by apply IH.
  - by apply IH.
  - by apply IH.
Qed.

Lemma fire_kept (P : E → Prop) i w : kept P w → kept P (fire response i w).
Proof.
  intros Hw. unfold fire. destruct (status w); try done.
  destruct (pending w !! i) as [p|] eqn:Hp; [|done].
  assert (Hw' : ∀ ev, (∀ e, ev ≠ Out e) → kept P (log ev (unregister i w))).
  { intros ev Hev. destruct Hw as [Htr Hpend]. split; simpl.
    - intros e [Hin|Hin]%elem_of_app; [by apply Htr|].
      apply list_elem_of_singleton in Hin. by edestruct Hev.
    - intros p' Hin. apply Hpend. by eapply list_elem_of_delete_inv. }
  destruct (response (p_req p)) as [a|].
  - apply run_sync_kept; [|by apply Hw'].
    destruct Hw as [_ Hpend]. apply Hpend. by eapply list_elem_of_lookup_2.
  - by apply Hw'.
Qed.

Lemma run_loop_kept (P : E → Prop) schedule : ∀ w,
  kept P w → kept P (run_loop response schedule w).
Proof.
  induction schedule as [|i schedule IH]; intros w Hw; [done|].
  simpl. by apply IH, fire_kept.
Qed.

Lemma mapArrayC_emits_only {T U} (P : E → Prop)
    (f : T → Continue E Q Rsp V U → Prog E Q Rsp V ()) (xs : list T) :
  ∀ continuation : Continue E Q Rsp V (list U),
    (∀ t cont, (∀ u, emits_only P (cont u)) → emits_only P (f t cont)) →
    (∀ result, emits_only P (continuation result)) →
    emits_only P (mapArrayC xs f continuation).
Proof.
  induction xs as [|x xs IH]; intros continuation Hf Hc; simpl; [done|].
  apply Hf. intros first. apply IH; [done|]. intros rest. apply Hc.
Qed.

End InvariantFacts.

Section RunFacts.
Context {JSON : Type}.
Variable env : Env JSON.
Variable response : ∀ q : Request, option (Answer (JSON:=JSON) q).

Lemma renderAndOutput_quiet options (jsonArrayMap : JsonArrayMap JSON) :
  quiet (renderAndOutput env options jsonArrayMap).
Proof.
  unfold renderAndOutput, renderFromJsonArrayMap, getRenderer, fromRight.
  destruct (String.eqb (src_lang options) "json").
  - destruct (find _ _) as [r|]; simpl; [|done].
    destruct (Main_renderFromJsonArrayMap env _); simpl; [done|].
    by destruct (truthy (out options)).
  - destruct (String.eqb (src_lang options) "schema"); [|done].
    destruct (find _ _) as [r|]; simpl; [|done].
    destruct (Main_renderFromJsonSchemaArrayMap env _); simpl; [done|].
    by destruct (truthy (out options)).
Qed.

Lemma parseFileOrUrl_serial fileOrUrl (cont : JSON → CliProg JSON ()) :
  (∀ json, serial (cont json)) → serial (parseFileOrUrl env fileOrUrl cont).
Proof.
  intros Hc. unfold parseFileOrUrl, parseJsonFromStream.
  destruct (fs_existsSync env fileOrUrl); simpl; auto.
Qed.

Lemma names_quiet options :
  quiet (match truthy (lang options) with
         | Some l => mret l
         | None => inferLang (JSON:=JSON) options
         end)
  ∧ quiet (match truthy (top_level options) with
           | Some t => mret t
           | None => inferTopLevel (JSON:=JSON) options
           end).
Proof.
  split.
  - destruct (truthy (lang options)); [done|]. unfold inferLang.
    destruct (truthy (out options)); [|done]. by destruct (String.eqb _ _).
  - destruct (truthy (top_level options)); [done|]. unfold inferTopLevel.
    destruct (truthy (out options)); [done|].
    by destruct (src options) as [[|? [|]]|].
Qed.

Lemma main_serial args options : serial (main env args options).
Proof.
  unfold main.
  apply serial_bind; [apply names_quiet|]. intros l.
  apply serial_bind; [apply names_quiet|]. intros t. cbv zeta.
  set (options' := set_src _ _).
  destruct (_ || _); [done|].
  destruct (truthy (urls_from _)) as [file|].
  - simpl.
    destruct (fs_readFileSync env file) as [text|]; [|done].
    destruct (JSON_parse env text) as [json|]; [|done].
    destruct (Main_urlsFromJsonGrammar env json) as [message|result]; [done|].
    unfold mapObjectValuesC. simpl. intros resultObject.
    apply mapArrayC_serial.
    + intros key cont Hcont. unfold parseFileOrUrlArray.
      apply mapArrayC_serial.
      * intros s c Hc. by apply parseFileOrUrl_serial.
      * intros samples. simpl. apply Hcont.
    + intros _. simpl. intros props.
      apply quiet_serial, renderAndOutput_quiet.
  - destruct (length _ =? 0).
    + simpl. split; [|done]. intros json.
      apply quiet_serial, renderAndOutput_quiet.
    + destruct (length _ =? 1); [|done].
      unfold parseFileOrUrlArray. apply mapArrayC_serial.
      * intros s c Hc. by apply parseFileOrUrl_serial.
      * intros samples. apply quiet_serial, renderAndOutput_quiet.
Qed.

(** X11.  At every moment of every run of the script, in each of its
    modes and whatever the schedule and the answers of the outside world,
    at most one asynchronous operation (the parse of a stream or a
    network request) is in flight. *)
Theorem main_one_in_flight (args : list string) (options : Options)
    (schedule : list nat) :
  length (pending (run response schedule (main env args options))) ≤ 1.
Proof.
  assert (one_in_flight (run response schedule (main env args options)))
    as [->|(p & -> & _)]; [|simpl; lia..].
  apply run_loop_one_in_flight, run_sync_serial; [apply main_serial|done].
Qed.

Lemma renderAndOutput_to_the_sink options (jsonArrayMap : JsonArrayMap JSON) :
  emits_only (to_the_sink options) (renderAndOutput env options jsonArrayMap).
Proof.
  unfold renderAndOutput, renderFromJsonArrayMap, getRenderer, fromRight.
  destruct (String.eqb (src_lang options) "json").
  - destruct (find _ _) as [r|]; simpl; [|done].
    destruct (Main_renderFromJsonArrayMap env _); simpl; [done|].
    by destruct (truthy (out options)) eqn:Hout.
  - destruct (String.eqb (src_lang options) "schema"); [|done].
    destruct (find _ _) as [r|]; simpl; [|done].
    destruct (Main_renderFromJsonSchemaArrayMap env _); simpl; [done|].
    by destruct (truthy (out options)) eqn:Hout.
Qed.

Lemma parseFileOrUrl_emits_only (P : Effect → Prop) fileOrUrl
    (cont : JSON → CliProg JSON ()) :
  (∀ path, P (FileOpen path)) →
  (∀ json, emits_only P (cont json)) →
  emits_only P (parseFileOrUrl env fileOrUrl cont).
Proof.
  intros HP Hc. unfold parseFileOrUrl, parseJsonFromStream.
  destruct (fs_existsSync env fileOrUrl); simpl; auto.
Qed.

Lemma names_emit_only options (P : Effect → Prop) :
  (∀ message, P (ConsoleError message)) →
  emits_only P (match truthy (lang options) with
                | Some l => mret l
                | None => inferLang (JSON:=JSON) options
                end)
  ∧ emits_only P (match truthy (top_level options) with
                  | Some t => mret t
                  | None => inferTopLevel (JSON:=JSON) options
                  end).
Proof.
  intros HP. split.
  - destruct (truthy (lang options)); [done|]. unfold inferLang.
    destruct (truthy (out options)); [|done].
    destruct (String.eqb _ _); simpl; auto.
  - destruct (truthy (top_level options)); [done|]. unfold inferTopLevel.
    destruct (truthy (out options)); [done|].
    by destruct (src options) as [[|? [|]]|].
Qed.

Lemma main_to_the_sink args options :
  emits_only (to_the_sink options) (main env args options).
Proof.
  unfold main.
  apply emits_only_bind; [by apply names_emit_only|]. intros l.
  apply emits_only_bind; [by apply (names_emit_only (set_lang l options))|].
  intros t. cbv zeta.
  set (options' := set_src _ _).
  assert (Hsink : ∀ m, emits_only (to_the_sink options)
                         (renderAndOutput env options' m))
    by (intros m; apply (renderAndOutput_to_the_sink options')).
  destruct (_ || _); [done|].
  destruct (truthy (urls_from _)) as [file|].
  - simpl. split; [done|].
    destruct (fs_readFileSync env file) as [text|]; [|done].
    destruct (JSON_parse env text) as [json|]; [|done].
    destruct (Main_urlsFromJsonGrammar env json) as [message|result]; [done|].
    unfold mapObjectValuesC. simpl. intros resultObject.
    apply mapArrayC_emits_only.
    + intros key cont Hcont. unfold parseFileOrUrlArray.
      apply mapArrayC_emits_only.
      * intros s c Hc. by apply parseFileOrUrl_emits_only.
      * intros samples. simpl. apply Hcont.
    + intros _. simpl. intros props. apply Hsink.
  - destruct (length _ =? 0).
    + simpl. split; [|done]. intros json. apply Hsink.
    + destruct (length _ =? 1); [|done].
      unfold parseFileOrUrlArray. apply mapArrayC_emits_only.
      * intros s c Hc. by apply parseFileOrUrl_emits_only.
      * intros samples. apply Hsink.
Qed.

(** X12.  One sink: in every run of the script, whatever the schedule,
    a file is written only when an output destination is given, and then
    it is that destination; and generated code goes to standard output
    only when no output destination is given. *)
Theorem main_writes_to_the_sink (args : list string) (options : Options)
    (schedule : list nat) :
  let w := run response schedule (main env args options) in
  (∀ path data, Out (FileWrite path data) ∈ trace w →
     truthy (out options) = Some path)
  ∧ (∀ data, Out (StdoutWrite data) ∈ trace w →
       truthy (out options) = None).
Proof.
  intros w.
  assert (kept (to_the_sink options) w) as [Htr _].
  { apply run_loop_kept, run_sync_kept; [apply main_to_the_sink|].
    split; simpl.
    - intros e He. by apply elem_of_nil in He.
    - intros p Hp. by apply elem_of_nil in Hp. }
  split.
  - intros path data Hin. exact (Htr _ Hin).
  - intros data Hin. exact (Htr _ Hin).
Qed.

End RunFacts.

(** ** The grammar mode *)

Section GrammarFacts.
Context {JSON : Type}.
Variable env : Env JSON.
Variable response : ∀ q : Request, option (Answer (JSON:=JSON) q).
Variable result : Obj (list string).
Variable aggregate : gmap string (list JSON).

Abbreviation RW := (World Effect Request (Answer (JSON:=JSON)) (list JSON)).

(** Every group of the expansion resolves to its sequence of samples. *)
Hypothesis groups_resolve :
  mapM (sample_of env response) <$> own_properties result = Some <$> aggregate.

Lemma group_resolves key :
  key ∈ Object_keys result →
  ∃ samples,
    mapM (sample_of env response) (value_of [] result key) = Some samples
    ∧ aggregate !! key = Some samples.
Proof.
  intros [urls Hurls]%elem_of_Object_keys.
  pose proof (f_equal (λ m, m !! key) groups_resolve) as Hkey. simpl in Hkey.
  unfold get_property in Hurls.
  rewrite !lookup_fmap, Hurls in Hkey. simpl in Hkey.
  destruct (aggregate !! key) as [samples|] eqn:Hagg; [|done].
  exists samples. unfold value_of, get_property. rewrite Hurls. simpl.
  split; [|done]. by injection Hkey.
Qed.

Lemma aggregate_keys key :
  key ∉ Object_keys result → aggregate !! key = None.
Proof.
  intros Hkey.
  pose proof (f_equal (λ m, m !! key) groups_resolve) as Heq. simpl in Heq.
  rewrite !lookup_fmap in Heq.
  destruct (own_properties result !! key) as [urls|] eqn:Hurls.
  - exfalso. apply Hkey, elem_of_Object_keys. by eexists.
  - by destruct (aggregate !! key).
Qed.

Lemma aggregate_assembled :
  foldl (λ m key, set_property key (default [] (aggregate !! key)) m) ∅
    (Object_keys result)
  = delete "__proto__" aggregate.
Proof.
  apply map_eq. intros key. rewrite assigned_lookup.
  destruct (decide (key ∈ Object_keys result ∧ key ≠ "__proto__"))
    as [[Hin Hne]|Hn].
  - rewrite lookup_delete_ne by done.
    destruct (group_resolves key Hin) as (samples & _ & ->). done.
  - rewrite lookup_empty. destruct (decide (key = "__proto__")) as [->|Hne].
    + by rewrite lookup_delete_eq.
    + rewrite lookup_delete_ne by done. symmetry. apply aggregate_keys.
      intros Hin. by apply Hn.
Qed.

Lemma group_heap (step : string → RW → RW) (keys : list string) :
  (∀ key w, heap (step key w)
            = alter (set_property key (default [] (aggregate !! key))) 0
                (heap w)) →
  ∀ (w : RW) props, heap w = [props] →
    heap (foldl (λ w key, step key w) w keys)
    = [foldl (λ m key, set_property key (default [] (aggregate !! key)) m)
         props keys].
Proof.
  intros Hstep. induction keys as [|key keys IH]; intros w props Hw; [done|].
  simpl. apply IH. by rewrite Hstep, Hw.
Qed.

Lemma group_trace (step : string → RW → RW) (events : string → list (Event Effect Request))
    (keys : list string) :
  (∀ key w, trace (step key w) = trace w ++ events key) →
  ∀ w : RW, trace (foldl (λ w key, step key w) w keys)
            = trace w ++ (keys ≫= events).
Proof.
  intros Hstep. induction keys as [|key keys IH]; intros w; simpl.
  - by rewrite app_nil_r.
  - by rewrite IH, Hstep, <- app_assoc.
Qed.

(** X13.  The grammar mode: when the grammar file is read and parsed, its
    expansion gives named groups of addresses, and every source of every
    group resolves and parses, then under every schedule in which the
    operations have completed the render step runs, once, on the
    aggregate that has the names of the expansion other than [__proto__]
    and binds each of them to the samples of its sources, in the order of
    the sources; before it, the sources of every group, one named
    [__proto__] included, have been resolved one after the other, group by
    group in the order in which [Object.keys] enumerates the expansion. *)
Theorem grammar_mode_aggregates (args : list string) (options : Options)
    (file text : string) (json : JSON) (l t : string) (schedule : list nat) :
  args ≠ [] → help options = false →
  truthy (urls_from options) = Some file →
  fs_readFileSync env file = Some text →
  JSON_parse env text = Some json →
  Main_urlsFromJsonGrammar env json = Right result →
  selects_lang (JSON:=JSON) options l →
  selects_top_level (JSON:=JSON) options t →
  sum_list ((λ key, sum_list (hops env <$> value_of [] result key))
              <$> Object_keys result) ≤ completions schedule →
  let options' :=
    set_src (default [] (src options)) (set_top_level t (set_lang l options)) in
  dom aggregate = dom (own_properties result)
  ∧ ∃ rest (w' : RW),
      run response schedule (main env args options)
      = run_loop response rest
          (run_sync
             (renderAndOutput env options' (delete "__proto__" aggregate)) w')
      ∧ trace w'
        = Out (FileRead file)
          :: (Object_keys result ≫= λ key,
                value_of [] result key ≫= resolution env)
      ∧ pending w' = [] ∧ status w' = Running.
Proof.
  intros Hargs Hhelp Hurls Hread Hparse Hright Hl Ht Hlen options'.
  split.
  { apply set_eq. intros key. rewrite !elem_of_dom.
    pose proof (f_equal (λ m, m !! key) groups_resolve) as Hkey.
    simpl in Hkey. rewrite !lookup_fmap in Hkey.
    destruct (own_properties result !! key), (aggregate !! key); simpl in Hkey;
      try done; split; intros [? ?]; done. }
  rewrite (main_settled env args options l t Hl Ht). cbn zeta.
  rewrite Hhelp, Hurls, Hread, Hparse, Hright.
  destruct args as [|a args]; [done|]. simpl length. cbn [Nat.eqb orb].
  fold options'.
  destruct (after_fires_enough schedule _ Hlen) as [rest Hrest].
  set (step := λ (key : string) (w : RW),
    with_heap
      (alter (set_property key (default [] (aggregate !! key))) 0 (heap w))
      (extend (value_of [] result key ≫= resolution env) w)).
  set (w1 := with_heap [∅] (log (Out (FileRead file)) (initial : RW))).
  exists rest, (foldl (λ w key, step key w) w1 (Object_keys result)).
  assert (Hsettles : settles response
    (mapArrayC (Object_keys result)
       (λ key arrayContinuation,
          parseFileOrUrlArray env (default [] (get_property result key))
            (λ newValue, SetProp 0 key newValue (arrayContinuation tt)))
       (λ _ : list (), GetProps 0 (renderAndOutput env options')))
    (sum_list ((λ key, sum_list (hops env <$> value_of [] result key))
                 <$> Object_keys result))
    (GetProps 0 (renderAndOutput env options'))
    (λ w, foldl (λ w key, step key w) w (Object_keys result))).
  { assert (Hall : ∀ keys, (∀ key, key ∈ keys → key ∈ Object_keys result) →
      Forall2 (λ key (_ : ()), key ∈ Object_keys result) keys
        ((λ _, tt) <$> keys)).
    { induction keys as [|key keys IH]; intros Hkeys; constructor.
      - apply Hkeys. by left.
      - apply IH. intros key' Hkey'. apply Hkeys. by right. }
    apply (settles_mapArrayC response _
             (λ key (_ : ()), key ∈ Object_keys result)
             (λ key, sum_list (hops env <$> value_of [] result key)) step
             ) with (us := (λ _, tt) <$> Object_keys result);
      [|by intros key w|by apply Hall].
    intros key [] cont Hkey.
    destruct (group_resolves key Hkey) as (samples & Hsamples & Hagg).
    unfold step. rewrite Hagg. simpl default.
    exact (settles_sync response _ _ (cont tt) _ _
             (λ w, with_heap (alter (set_property key samples) 0 (heap w)) w)
             (parseFileOrUrlArray_settles env response
                (value_of [] result key) samples
                (λ newValue, SetProp 0 key newValue (cont tt)) Hsamples)
             (λ w, eq_refl)). }
  unfold run. simpl run_sync. unfold mapObjectValuesC. simpl run_sync.
  fold w1.
  rewrite (Hsettles w1 schedule rest eq_refl eq_refl Hrest).
  simpl run_sync.
  rewrite (group_heap step (Object_keys result) (λ _ _, eq_refl) w1 ∅ eq_refl).
  simpl. rewrite aggregate_assembled.
  split_and!.
  - done.
  - rewrite (group_trace step
               (λ key, value_of [] result key ≫= resolution env)
               (Object_keys result) (λ _ _, eq_refl) w1). done.
  - by destruct (calm_fold step (Object_keys result)
                   (λ key w, conj eq_refl eq_refl) w1) as [-> _].
  - by destruct (calm_fold step (Object_keys result)
                   (λ key w, conj eq_refl eq_refl) w1) as [_ ->].
Qed.

End GrammarFacts.

(** ** The object mapper on every object *)


(** ** Concrete runs of the further properties *)

Lemma parseFileOrUrlArray_in_order_witness :
  length [7; 7] = length ["http://a"; "f.json"]
  ∧ ∃ rest,
      run_loop sample_response [0; 1; 0; 0]
        (run_sync (parseFileOrUrlArray sample_env ["http://a"; "f.json"]
                     (workFromJsonArray sample_env one_source_options))
           initial)
      = run_loop sample_response rest
          (run_sync (workFromJsonArray sample_env one_source_options [7; 7])
             (extend (["http://a"; "f.json"] ≫= resolution sample_env)
                initial)).
Proof.
  apply (parseFileOrUrlArray_in_order sample_env sample_response
           ["http://a"; "f.json"] [7; 7]
           (workFromJsonArray sample_env one_source_options) initial
           [0; 1; 0; 0]).
  - reflexivity.
  - reflexivity.
  - reflexivity.
  - vm_compute. lia.
Defined.

Lemma single_source_mode_witness :
  ∃ rest,
    run sample_response [0] (main sample_env ["-l"; "go"; "f.json"]
                               one_source_options)
    = run_loop sample_response rest
        (run_sync
           (renderAndOutput sample_env
              (set_src ["f.json"]
                 (set_top_level "f" (set_lang "go" one_source_options)))
              (<["f" := [7]]> ∅))
           (extend (resolution sample_env "f.json") initial)).
Proof.
  apply (single_source_mode sample_env sample_response
           ["-l"; "go"; "f.json"] one_source_options "f.json" "go" "f" 7 [0]).
  - discriminate.
  - reflexivity.
  - reflexivity.
  - reflexivity.
  - left. reflexivity.
  - right. split; reflexivity.
  - discriminate.
  - reflexivity.
  - vm_compute. lia.
Defined.

Lemma usage_only_witness :
  run sample_response [0; 0]
    (main sample_env ["--help"; "-l"; "go"; "f.json"] help_options)
  = log (Out (ConsoleLog "usage")) initial.
Proof.
  apply (usage_only sample_env sample_response
           ["--help"; "-l"; "go"; "f.json"] help_options "go" "f" [0; 0]).
  - reflexivity.
  - left. reflexivity.
  - right. split; reflexivity.
Defined.

Lemma grammar_error_exits_witness :
  run sample_response [0]
    (main sample_env ["--urls-from"; "g.json"] grammar_options)
  = halt (Exited 1)
      (log (Out (ConsoleError "Error: bad grammar"))
         (log (Out (FileRead "g.json")) initial)).
Proof.
  apply (grammar_error_exits sample_env sample_response
           ["--urls-from"; "g.json"] grammar_options "g.json" "{}" 0
           "bad grammar" "go" "T" [0]).
  - discriminate.
  - reflexivity.
  - reflexivity.
  - reflexivity.
  - reflexivity.
  - reflexivity.
  - left. reflexivity.
  - left. reflexivity.
Defined.

Lemma unsupported_source_language_witness :
  run_sync (renderAndOutput sample_env xml_options ∅) initial
  = halt (Exited 1)
      (log (Out (ConsoleError (unsupported_input "xml"))) initial).
Proof.
  apply (unsupported_source_language sample_env xml_options ∅ initial).
  - discriminate.
  - discriminate.
  - apply (bool_decide_unpack _). vm_compute. exact I.
Defined.

Lemma render_success_writes_once_witness :
  run_sync (renderAndOutput sample_env one_source_options ∅) initial
  = log (Out (StdoutWrite "code")) initial.
Proof.
  apply (render_success_writes_once sample_env one_source_options ∅
           (Main_renderFromJsonArrayMap sample_env) golang "code" initial).
  - left. split; reflexivity.
  - reflexivity.
  - reflexivity.
Defined.

Lemma inferTopLevel_strips_witness :
  inferTopLevel (JSON:=nat) foo_cs_options = Ret "Foo".
Proof.
  apply (inferTopLevel_strips foo_cs_options "Foo.cs" "Foo").
  - reflexivity.
  - left. split; [reflexivity|].
    intros [|[|[|i]]] Hi; [reflexivity..|]. simpl in Hi. lia.
Defined.

Lemma main_throws_without_names_witness :
  run sample_response [0] (main sample_env [] no_options)
  = halt (Crashed no_length) initial.
Proof.
  apply (main_throws_without_names sample_env sample_response [] no_options [0]);
    reflexivity.
Defined.

Lemma sample_groups_resolve :
  mapM (sample_of grammar_env sample_response) <$> own_properties sample_expansion
  = Some <$> <["Zone" := [7; 7]]> (<["Block" := [7]]> ∅).
Proof.
  unfold own_properties, sample_expansion. simpl list_to_map.
  by rewrite !fmap_insert, !fmap_empty.
Qed.

Lemma grammar_mode_aggregates_witness :
  dom (<["Zone" := [7; 7]]> (<["Block" := [7]]> (∅ : gmap string (list nat))))
  = dom (own_properties sample_expansion)
  ∧ ∃ rest w',
      run sample_response [0; 0; 0; 0]
        (main grammar_env ["--urls-from"; "g.json"] grammar_options)
      = run_loop sample_response rest
          (run_sync
             (renderAndOutput grammar_env
                (set_src [] (set_top_level "T" (set_lang "go" grammar_options)))
                (delete "__proto__" (<["Zone" := [7; 7]]> (<["Block" := [7]]> ∅))))
             w')
      ∧ trace w'
        = Out (FileRead "g.json")
          :: (Object_keys sample_expansion ≫= λ key,
                value_of [] sample_expansion key ≫= resolution grammar_env)
      ∧ pending w' = [] ∧ status w' = Running.
Proof.
  apply (grammar_mode_aggregates grammar_env sample_response sample_expansion
           (<["Zone" := [7; 7]]> (<["Block" := [7]]> ∅)) sample_groups_resolve
           ["--urls-from"; "g.json"] grammar_options "g.json" "{}" 0 "go" "T"
           [0; 0; 0; 0]).
  - discriminate.
  - reflexivity.
  - reflexivity.
  - reflexivity.
  - reflexivity.
  - reflexivity.
  - left. reflexivity.
  - left. reflexivity.
  - vm_compute. lia.
Defined.

